(** * StrokeCharts.vue: chart reconciliation, fetch pipeline and debounce

    A shallow embedding of the Vue component [src/frontend/StrokeCharts.vue].

    - [Js]          the JavaScript values the component passes around
                    (snapshot bodies, Chart.js datasets and options).
    - [ChartJs]     the part of a [Chart] object the component touches.
    - [Lodash]      the timer state machine behind [debounce].
    - [StrokeCharts] the component: its data, its methods, its template
                    fragment, and the view-level wiring of [created] and
                    [debouncedFetchData].
    - [Scenario]    the concrete snapshots and states the examples run on.

    The component state is passed explicitly.  [Chart] objects live in a
    store indexed by object identity, so that [this.charts[title]] and the
    local variable [chart] of [updateChart] alias the same object.  Calls into
    external collaborators ([utils.request.get], [utils.handleRequestError],
    [new Chart], [chart.update]) are recorded, oldest first, in a trace. *)

From Stdlib Require Import ZArith QArith String List Lia DecimalString.
From stdpp Require Import base option strings gmap list fin_maps.

(* ===================================================================== *)
(** ** JavaScript values *)
(* ===================================================================== *)

Module Js.

(** A JavaScript [number].  The literals of the component ([0.1], [14],
    [100]) and the JSON numbers of a snapshot are rationals. *)
Definition number := Q.

(** The function values that occur in the objects handed to Chart.js. *)
Inductive Callback :=
| TooltipPercentLabel.  (* (tooltipItem) => `${tooltipItem.yLabel}%` *)

#[local] Set Warnings "-register-all".
Inductive JsValue :=
| JUndefined
| JNull
| JBool (b : bool)
| JNum (n : number)
| JStr (s : string)
| JArr (xs : list JsValue)
| JObj (fields : list (string * JsValue))   (* own properties, insertion order *)
| JFun (f : Callback).
#[local] Set Warnings "register-all".

Definition int (z : Z) : JsValue := JNum (inject_Z z).

(** JavaScript truthiness ([!v] is [negb (truthy v)]). *)
Definition truthy (v : JsValue) : bool :=
  match v with
  | JUndefined | JNull => false
  | JBool b => b
  | JNum n => negb (Qeq_bool n 0)
  | JStr s => negb (String.eqb s "")
  | JArr _ | JObj _ | JFun _ => true
  end.

Fixpoint assoc (k : string) (fs : list (string * JsValue)) : JsValue :=
  match fs with
  | [] => JUndefined
  | (k', v) :: fs' => if String.eqb k k' then v else assoc k fs'
  end.

(** [v.k] for the property names the component reads ([months],
    [stroke_unit_access], [stroke_unit_access_percentage], [yLabel]): none of
    them is inherited from a prototype, so a value without such an own
    property yields [undefined]. *)
Definition prop (k : string) (v : JsValue) : JsValue :=
  match v with
  | JObj fs => assoc k fs
  | _ => JUndefined
  end.

(** [o[k] = v] on the own properties: overwrite in place or append. *)
Fixpoint set_field (k : string) (v : JsValue) (fs : list (string * JsValue))
  : list (string * JsValue) :=
  match fs with
  | [] => [(k, v)]
  | (k', v') :: fs' =>
      if String.eqb k k' then (k, v) :: fs' else (k', v') :: set_field k v fs'
  end.

(** An object literal [{k1: v1, ..., ...spread, ...}]: its entries are
    assigned left to right; a spread contributes the own properties of the
    spread object at its position. *)
Definition literal (entries : list (string * JsValue)) : JsValue :=
  JObj (fold_left (fun acc kv => set_field (fst kv) (snd kv) acc) entries []).

Definition spread (v : JsValue) : list (string * JsValue) :=
  match v with
  | JObj fs => fs
  | _ => []
  end.

(** [String(n)] for an integer-valued number below 1e21 in magnitude, where
    JavaScript prints plain decimal digits.  Other numbers are printed by the
    IEEE-754 shortest-digits algorithm, which is outside this model. *)
Definition number_toString (n : number) : option string :=
  let n := Qred n in
  if decide (Qden n = 1%positive ∧ (Z.abs (Qnum n) < 10 ^ 21)%Z)
  then Some (NilZero.string_of_int (Z.to_int (Qnum n)))
  else None.

(** [String(v)] on primitives. *)
Definition toString (v : JsValue) : option string :=
  match v with
  | JUndefined => Some "undefined"
  | JNull => Some "null"
  | JBool true => Some "true"
  | JBool false => Some "false"
  | JNum n => number_toString n
  | JStr s => Some s
  | JArr _ | JObj _ | JFun _ => None
  end.

(** What calling one of the callbacks on an argument returns. *)
Definition call (f : Callback) (arg : JsValue) : option string :=
  match f with
  | TooltipPercentLabel => s ← toString (prop "yLabel" arg); Some (s +:+ "%")
  end.

End Js.

Import Js.

(* ===================================================================== *)
(** ** Chart.js *)
(* ===================================================================== *)

Module ChartJs.

(** A DOM element handle ([this.$refs[title]]), opaque to the component. *)
Definition Element := nat.

(** The fields of a [Chart] object that the component reads or writes.
    [chart_ctx] and [chart_type] are fixed by the constructor call
    [new Chart(ctx, { type })]. *)
Record Chart := mkChart {
  chart_ctx : Element;
  chart_type : string;
  chart_data : JsValue;
  chart_options : JsValue;
}.

(** [new Chart(ctx, { type: chartType })].  No data and no options are passed;
    the library fills in its defaults, which the component never reads (both
    fields are assigned before the first [update]). *)
Definition new_Chart (ctx : Element) (chartType : string) : Chart :=
  {| chart_ctx := ctx; chart_type := chartType;
     chart_data := JUndefined; chart_options := JUndefined |}.

Definition set_data (v : JsValue) (c : Chart) : Chart :=
  {| chart_ctx := chart_ctx c; chart_type := chart_type c;
     chart_data := v; chart_options := chart_options c |}.

Definition set_options (v : JsValue) (c : Chart) : Chart :=
  {| chart_ctx := chart_ctx c; chart_type := chart_type c;
     chart_data := chart_data c; chart_options := v |}.

End ChartJs.

Import ChartJs.

(* ===================================================================== *)
(** ** lodash [debounce] *)
(* ===================================================================== *)

(** [debounce] comes from the dependency [lodash-es]; the component only
    calls it.  This module follows the algorithm of lodash 4 ([debounce.js]):
    the closure variables become a record, [Date.now()] becomes an argument,
    and [setTimeout(timerExpired, d)] at time [t] is a timer due at [t + d].
    [result], [lastThis] and the arguments themselves play no role for a
    function called without arguments whose result is dropped; [lastArgs] is
    kept as the flag lodash tests. *)
Module Lodash.

Open Scope Z_scope.

(** [debounce(func, wait, options)] after option parsing. *)
Record Config := mkConfig {
  wait : Z;
  leading : bool;
  maxWait : option Z;     (* [maxing] is [is_Some maxWait] *)
  trailing : bool;
}.

Record State := mkState {
  lastArgs : bool;              (* lastArgs !== undefined *)
  lastCallTime : option Z;
  lastInvokeTime : Z;
  timerId : option Z;           (* when the pending timer is due *)
}.

(** The closure right after [debounce(...)] returned. *)
Definition idle : State :=
  {| lastArgs := false; lastCallTime := None; lastInvokeTime := 0;
     timerId := None |}.

Section Debounced.
Variable cfg : Config.

(** Each function returns the new closure state and whether [func] ran. *)

Definition invokeFunc (time : Z) (st : State) : State * bool :=
  ({| lastArgs := false; lastCallTime := lastCallTime st;
      lastInvokeTime := time; timerId := timerId st |}, true).

Definition leadingEdge (time : Z) (st : State) : State * bool :=
  let st := {| lastArgs := lastArgs st; lastCallTime := lastCallTime st;
               lastInvokeTime := time; timerId := Some (time + wait cfg) |} in
  if leading cfg then invokeFunc time st else (st, false).

Definition remainingWait (time : Z) (st : State) : Z :=
  let timeSinceLastCall := time - default 0 (lastCallTime st) in
  let timeSinceLastInvoke := time - lastInvokeTime st in
  let timeWaiting := wait cfg - timeSinceLastCall in
  match maxWait cfg with
  | Some m => Z.min timeWaiting (m - timeSinceLastInvoke)
  | None => timeWaiting
  end.

Definition shouldInvoke (time : Z) (st : State) : bool :=
  match lastCallTime st with
  | None => true
  | Some lastCall =>
      let timeSinceLastCall := time - lastCall in
      let timeSinceLastInvoke := time - lastInvokeTime st in
      (wait cfg <=? timeSinceLastCall) || (timeSinceLastCall <? 0)
      || match maxWait cfg with
         | Some m => m <=? timeSinceLastInvoke
         | None => false
         end
  end.

Definition trailingEdge (time : Z) (st : State) : State * bool :=
  let st := {| lastArgs := lastArgs st; lastCallTime := lastCallTime st;
               lastInvokeTime := lastInvokeTime st; timerId := None |} in
  if trailing cfg && lastArgs st then invokeFunc time st
  else ({| lastArgs := false; lastCallTime := lastCallTime st;
           lastInvokeTime := lastInvokeTime st; timerId := None |}, false).

(** The timer callback, run at [time]. *)
Definition timerExpired (time : Z) (st : State) : State * bool :=
  if shouldInvoke time st then trailingEdge time st
  else ({| lastArgs := lastArgs st; lastCallTime := lastCallTime st;
           lastInvokeTime := lastInvokeTime st;
           timerId := Some (time + remainingWait time st) |}, false).

(** A call of the debounced function at [time]. *)
Definition debounced (time : Z) (st : State) : State * bool :=
  let isInvoking := shouldInvoke time st in
  let st := {| lastArgs := true; lastCallTime := Some time;
               lastInvokeTime := lastInvokeTime st; timerId := timerId st |} in
  match isInvoking, timerId st, maxWait cfg with
  | true, None, _ => leadingEdge time st
  | true, Some _, Some _ =>
      invokeFunc time
        {| lastArgs := lastArgs st; lastCallTime := lastCallTime st;
           lastInvokeTime := lastInvokeTime st;
           timerId := Some (time + wait cfg) |}
  | _, None, _ =>
      ({| lastArgs := lastArgs st; lastCallTime := lastCallTime st;
          lastInvokeTime := lastInvokeTime st;
          timerId := Some (time + wait cfg) |}, false)
  | _, Some _, _ => (st, false)
  end.

(** The event loop between two calls: timers due up to [horizon] fire at
    their due time, in order ([None]: until no timer is pending).  Returns
    the state and the times at which [func] ran. *)
Fixpoint runTimers (fuel : nat) (horizon : option Z) (st : State)
  : State * list Z :=
  match fuel with
  | O => (st, [])
  | S fuel' =>
      match timerId st with
      | None => (st, [])
      | Some due =>
          if match horizon with Some h => due <=? h | None => true end
          then
            let '(st', ran) := timerExpired due st in
            let '(st'', times) := runTimers fuel' horizon st' in
            (st'', (if ran then [due] else []) ++ times)
          else (st, [])
      end
  end.

(** Calls of the debounced function at the given times (ascending), then
    the remaining timers. *)
Fixpoint runCalls (fuel : nat) (calls : list Z) (st : State)
  : State * list Z :=
  match calls with
  | [] => runTimers fuel None st
  | t :: calls' =>
      let '(st1, times1) := runTimers fuel (Some t) st in
      let '(st2, ran) := debounced t st1 in
      let '(st3, times3) := runCalls fuel calls' st2 in
      (st3, times1 ++ (if ran then [t] else []) ++ times3)
  end.

End Debounced.

(** A burst: each call comes less than [w] after the one before it
    ([prev] being the time of the call before the first of [ts]). *)
Fixpoint burst (w prev : Z) (ts : list Z) : bool :=
  match ts with
  | [] => true
  | t :: ts' => (prev <=? t) && (t <? prev + w) && burst w t ts'
  end.

(** Call times in ascending order, none before [prev]. *)
Fixpoint ascending (prev : Z) (ts : list Z) : bool :=
  match ts with
  | [] => true
  | t :: ts' => (prev <=? t) && ascending t ts'
  end.

(** Calls that each come at least [w] after the one before. *)
Fixpoint spaced (w prev : Z) (ts : list Z) : bool :=
  match ts with
  | [] => true
  | t :: ts' => (prev + w <=? t) && spaced w t ts'
  end.

(** When a debounced function with a leading and a trailing edge is meant
    to run, in the words of its documentation: at a call that comes after
    [w] of silence, and [w] after the last call of a burst if the burst had
    calls that did not run.  [prev] is the latest call so far and [waiting]
    tells whether a call since the last run is still to be served. *)
Fixpoint schedule (w prev : Z) (waiting : bool) (ts : list Z) : list Z :=
  match ts with
  | [] => if waiting then [prev + w] else []
  | t :: ts' =>
      if t <? prev + w then schedule w t true ts'
      else (if waiting then [prev + w] else []) ++ t :: schedule w t false ts'
  end.

End Lodash.

(* ===================================================================== *)
(** ** The component *)
(* ===================================================================== *)

Module StrokeCharts.

(** Identity of a [Chart] object. *)
Definition loc := nat.

(** Calls into the collaborators of the component, and one marker for the
    entry into [renderCharts]. *)
Inductive Event :=
| EvRequestGet (url : string) (params : JsValue)     (* utils.request.get(url, params) *)
| EvHandleRequestError (err : JsValue)               (* utils.handleRequestError(err) *)
| EvRenderCharts                                     (* renderCharts() entered *)
| EvNewChart (slot : string) (l : loc) (ctx : Element) (chartType : string)
    (* this.charts[slot] = l = new Chart(ctx, {type: chartType}) *)
| EvChartUpdate (l : loc) (data options : JsValue).  (* l.update(), with what l holds then *)

(** [this]: the reactive data of the component ([data], [loading], [charts]),
    the instance properties it reads ([$refs], [hospitals]), the store of the
    [Chart] objects it created, and the trace.  [charts] and [$refs] are
    objects used as maps from slot titles; a title is never the name of a
    property of [Object.prototype]. *)
Record Component := mkComponent {
  data : JsValue;                 (* ChartData | null *)
  loading : bool;
  charts : gmap string loc;       (* {[k: string]: Chart} *)
  refs : gmap string Element;     (* this.$refs *)
  hospitals : JsValue;            (* this.hospitals *)
  heap : gmap loc Chart;
  next : loc;                     (* identity of the next object allocated *)
  trace : list Event;
}.

(** The argument object of [updateChart]. *)
Record Descriptor := mkDescriptor {
  title : string;
  chartType : string;
  d_data : JsValue;
  d_options : JsValue;
}.

(** The result of [data()]; [$refs] and [hospitals] come from the view. *)
Definition initial (rs : gmap string Element) (hs : JsValue) : Component :=
  {| data := JNull; loading := false; charts := ∅; refs := rs; hospitals := hs;
     heap := ∅; next := 0; trace := [] |}.

Definition set_data (v : JsValue) (this : Component) : Component :=
  {| data := v; loading := loading this; charts := charts this; refs := refs this;
     hospitals := hospitals this; heap := heap this; next := next this;
     trace := trace this |}.

Definition set_loading (b : bool) (this : Component) : Component :=
  {| data := data this; loading := b; charts := charts this; refs := refs this;
     hospitals := hospitals this; heap := heap this; next := next this;
     trace := trace this |}.

(** The view layer mounts or unmounts elements between two method calls. *)
Definition set_refs (rs : gmap string Element) (this : Component) : Component :=
  {| data := data this; loading := loading this; charts := charts this; refs := rs;
     hospitals := hospitals this; heap := heap this; next := next this;
     trace := trace this |}.

Definition emit (e : Event) (this : Component) : Component :=
  {| data := data this; loading := loading this; charts := charts this;
     refs := refs this; hospitals := hospitals this; heap := heap this;
     next := next this; trace := trace this ++ [e] |}.

(** [this.charts[title] = new Chart(ctx, { type: chartType })] *)
Definition construct (t : string) (ctx : Element) (ty : string) (this : Component)
  : Component :=
  let l := next this in
  emit (EvNewChart t l ctx ty)
    {| data := data this; loading := loading this;
       charts := <[t := l]> (charts this); refs := refs this;
       hospitals := hospitals this;
       heap := <[l := new_Chart ctx ty]> (heap this);
       next := S l; trace := trace this |}.

(** A field assignment on the object [l]. *)
Definition mutate (l : loc) (f : Chart → Chart) (this : Component) : Component :=
  {| data := data this; loading := loading this; charts := charts this;
     refs := refs this; hospitals := hospitals this;
     heap := alter f l (heap this); next := next this; trace := trace this |}.

(** [chart.update()]: the library redraws from what the object holds.  (The
    registry of a well-formed state only names live objects, see [wf].) *)
Definition update (l : loc) (this : Component) : Component :=
  match heap this !! l with
  | Some c => emit (EvChartUpdate l (chart_data c) (chart_options c)) this
  | None => this
  end.

(** The tail of [updateChart], with [chart] bound to the object [l]:
    [chart.data = data; chart.options = options; chart.update()]. *)
Definition assign_and_update (l : loc) (d : Descriptor) (this : Component)
  : Component :=
  update l (mutate l (ChartJs.set_options (d_options d))
              (mutate l (ChartJs.set_data (d_data d)) this)).

(** The two assignments as one function on the object. *)
Definition assigned (d : Descriptor) : Chart → Chart :=
  ChartJs.set_options (d_options d) ∘ ChartJs.set_data (d_data d).

Definition updateChart (d : Descriptor) (this : Component) : Component :=
  match charts this !! title d with
  | Some l => assign_and_update l d this
  | None =>
      match refs this !! title d with
      | None => this
      | Some ctx =>
          let this' := construct (title d) ctx (chartType d) this in
          assign_and_update (next this) d this'
      end
  end.

(** The three ways through [updateChart]. *)
Inductive updateChart_path (d : Descriptor) (s : Component) : Prop :=
| path_reuse l :
    charts s !! title d = Some l →
    updateChart d s = assign_and_update l d s → updateChart_path d s
| path_skip :
    charts s !! title d = None → refs s !! title d = None →
    updateChart d s = s → updateChart_path d s
| path_create ctx :
    charts s !! title d = None → refs s !! title d = Some ctx →
    updateChart d s
    = assign_and_update (next s) d (construct (title d) ctx (chartType d) s) →
    updateChart_path d s.

(** The locals of [renderCharts] that reach a chart. *)
Definition fontStyling : JsValue :=
  literal [("fontColor", JStr "white"); ("fontSize", int 14)].

Definition lineStyles : JsValue :=
  literal [("borderColor", JStr "#4472c4"); ("backgroundColor", JStr "#a5a5a5");
           ("lineTension", JNum (1 # 10)); ("fill", JBool false)].

Definition percentageLineOptions : JsValue :=
  literal
    [("legend", literal [("display", JBool false)]);
     ("scales", literal
        [("xAxes", JArr [literal [("ticks", literal (spread fontStyling))]]);
         ("yAxes", JArr
            [literal
               [("scaleLabel",
                 literal ([("display", JBool true); ("labelString", JStr "%")]
                          ++ spread fontStyling));
                ("ticks",
                 literal ([("min", int 0); ("max", int 100)]
                          ++ spread fontStyling))]])]);
     ("tooltips", literal
        [("callbacks", literal [("label", JFun TooltipPercentLabel)])])].

(** The one descriptor [renderCharts] builds from [this.data]. *)
Definition strokeUnitAccess (snapshot : JsValue) : Descriptor :=
  {| title := "strokeUnitAccessChart";
     chartType := "line";
     d_data := literal
       [("labels", prop "months" snapshot);
        ("datasets", JArr
           [literal ([("label", JStr "Percentage");
                      ("data", prop "stroke_unit_access" snapshot)]
                     ++ spread lineStyles)])];
     d_options := percentageLineOptions |}.

(** [renderCharts].  The guard [if (!this.charts) return] never fires,
    [this.charts] being an object; the locals [barStyling], [legendSettings],
    [yTicks], [yAxes], [xAxes] and [options] reach no chart. *)
Definition renderCharts (this : Component) : Component :=
  let this := emit EvRenderCharts this in
  if truthy (data this) then updateChart (strokeUnitAccess (data this)) this
  else this.

(** The Reconciler over an arbitrary list of descriptors: [renderCharts]
    issues one [updateChart] call per chart, in order. *)
Definition reconcile (ds : list Descriptor) (this : Component) : Component :=
  fold_left (fun s d => updateChart d s) ds this.

(** How the promise returned by [utils.request.get] settles. *)
Inductive Settlement :=
| Fulfilled (body : JsValue)
| Rejected (err : JsValue).

(** [fetchData], up to the point where it returns the pending promise. *)
Definition fetchData (this : Component) : Component :=
  emit (EvRequestGet "/stroke-chart-data/"
          (literal [("hospitals", hospitals this)]))
       (set_loading true this).

(** The [.then] callback. *)
Definition fetchData_then (body : JsValue) (this : Component) : Component :=
  renderCharts (set_loading false (set_data body this)).

(** The [.catch] callback.  It would also receive an exception thrown by the
    [.then] callback; here neither [new Chart] nor [update] throws. *)
Definition fetchData_catch (err : JsValue) (this : Component) : Component :=
  emit (EvHandleRequestError err) this.

Definition settle (r : Settlement) (this : Component) : Component :=
  match r with
  | Fulfilled body => fetchData_then body this
  | Rejected err => fetchData_catch err this
  end.

(** The template fragment
    [<p v-if="data">Year to date: {{ data.stroke_unit_access_percentage }}%</p>].
    Vue prints [null] and [undefined] as the empty string and other
    primitives with [String]. *)
Definition interpolate (v : JsValue) : option string :=
  match v with
  | JUndefined | JNull => Some ""
  | _ => toString v
  end.

(** The text generated from the snapshot: the interpolation and the sign
    that follows it. *)
Definition percentageText (this : Component) : option string :=
  s ← interpolate (prop "stroke_unit_access_percentage" (data this));
  Some (s +:+ "%").

(** The text of the paragraph, when it is rendered ([v-if]); layout
    whitespace around it is left out. *)
Definition yearToDate (this : Component) : option string :=
  if truthy (data this)
  then s ← percentageText this; Some ("Year to date: " +:+ s)
  else None.

(** *** Histories of the component *)

(** What can happen to the component between two moments of observation:
    one of its methods runs, a pending request settles, or the view layer
    changes [$refs]. *)
Inductive Action :=
| ActFetchData
| ActSettle (r : Settlement)
| ActRenderCharts
| ActUpdateChart (d : Descriptor)
| ActRefs (rs : gmap string Element).

Definition perform (a : Action) (this : Component) : Component :=
  match a with
  | ActFetchData => fetchData this
  | ActSettle r => settle r this
  | ActRenderCharts => renderCharts this
  | ActUpdateChart d => updateChart d this
  | ActRefs rs => set_refs rs this
  end.

(** Does the action deliver a successful response? *)
Definition is_success (a : Action) : bool :=
  match a with
  | ActSettle (Fulfilled _) => true
  | _ => false
  end.

Definition run (acts : list Action) (this : Component) : Component :=
  fold_left (fun s a => perform a s) acts this.

(** The states a component can be in: those a history leads to from the
    result of [data()]. *)
Definition reachable (s : Component) : Prop :=
  ∃ rs hs acts, s = run acts (initial rs hs).

Definition is_construction (t : string) (e : Event) : bool :=
  match e with
  | EvNewChart t' _ _ _ => String.eqb t t'
  | _ => false
  end.

(** How many [Chart] objects were ever constructed for slot [t]. *)
Definition constructions (t : string) (tr : list Event) : nat :=
  length (List.filter (is_construction t) tr).

Definition is_request (e : Event) : bool :=
  match e with
  | EvRequestGet _ _ => true
  | _ => false
  end.

Definition requests (tr : list Event) : nat :=
  length (List.filter is_request tr).

(** The part of the state a chart shows: the registry and the objects. *)
Definition chart_state (s : Component) : gmap string loc * gmap loc Chart :=
  (charts s, heap s).

(** Well-formed states: every registered slot names a live object, objects
    are allocated below [next], no object is registered under two slots, and
    the trace records one construction per registered slot. *)
Record wf (s : Component) : Prop := mkWf {
  wf_registered : ∀ t l, charts s !! t = Some l → is_Some (heap s !! l);
  wf_fresh : ∀ l, is_Some (heap s !! l) → l < next s;
  wf_distinct : ∀ t1 t2 l,
    charts s !! t1 = Some l → charts s !! t2 = Some l → t1 = t2;
  wf_constructed : ∀ t,
    constructions t (trace s)
    = match charts s !! t with Some _ => 1 | None => 0 end;
}.

(** Two objects are the same chart when they agree on what the constructor
    fixed: the element drawn on and the chart kind. *)
Definition same_chart (c c' : Chart) : Prop :=
  chart_ctx c' = chart_ctx c ∧ chart_type c' = chart_type c.

(** Two components that agree on everything [updateChart] reads. *)
Definition same_charts (s s' : Component) : Prop :=
  charts s = charts s' ∧ heap s = heap s' ∧ next s = next s'
  ∧ refs s = refs s'.

(** [updateChart d] constructs nothing in [s]: the slot is registered, or
    it has no container. *)
Definition settled (d : Descriptor) (s : Component) : Prop :=
  is_Some (charts s !! title d) ∨ refs s !! title d = None.

(** What a call [updateChart d] that constructs nothing does to the object
    [l], given the registry [C]: the assignments, if [l] is the chart of the
    slot. *)
Definition touch (C : gmap string loc) (l : loc) (o : option Chart)
    (d : Descriptor) : option Chart :=
  if decide (C !! title d = Some l) then assigned d <$> o else o.

(** *** Observations used by the further properties *)

(** The chart object a slot shows, if any. *)
Definition chart_at (s : Component) (t : string) : option Chart :=
  l ← charts s !! t; heap s !! l.

(** Every object of the store is the chart of some slot. *)
Definition all_registered (s : Component) : Prop :=
  ∀ l, is_Some (heap s !! l) → ∃ t, charts s !! t = Some l.

(** What one [updateChart d] does to what slot [t] shows, given [$refs]. *)
Definition slot_step (rs : gmap string Element) (t : string)
    (o : option Chart) (d : Descriptor) : option Chart :=
  if decide (title d = t) then
    match o with
    | Some c => Some (assigned d c)
    | None => (λ ctx, assigned d (new_Chart ctx (chartType d))) <$> rs !! t
    end
  else o.

(** The descriptor [d] with another [chartType]. *)
Definition with_chartType (ty : string) (d : Descriptor) : Descriptor :=
  {| title := title d; chartType := ty; d_data := d_data d;
     d_options := d_options d |}.

Definition is_fetch (a : Action) : bool :=
  match a with ActFetchData => true | _ => false end.









(** A fetch that fails: the request and its rejection. *)
Definition failed_fetch (a : Action) : bool :=
  match a with
  | ActFetchData | ActSettle (Rejected _) => true
  | _ => false
  end.

(** *** The view: the component and its computed debounced function *)

(** [debounce(this.fetchData, 1000, {leading: true})] *)
Definition debounceConfig : Lodash.Config :=
  {| Lodash.wait := 1000; Lodash.leading := true; Lodash.maxWait := None;
     Lodash.trailing := true |}.

Record View := mkView {
  this : Component;
  debouncer : Lodash.State;   (* the closure of the computed property *)
}.

Definition mount (rs : gmap string Element) (hs : JsValue) : View :=
  {| this := initial rs hs; debouncer := Lodash.idle |}.

(** The [created] hook. *)
Definition created (v : View) : View :=
  {| this := fetchData (this v); debouncer := debouncer v |}.

Definition invoke (ran : bool) (c : Component) : Component :=
  if ran then fetchData c else c.

(** A call [this.debouncedFetchData()] at time [now]. *)
Definition debouncedFetchData (now : Z) (v : View) : View :=
  let '(st, ran) := Lodash.debounced debounceConfig now (debouncer v) in
  {| this := invoke ran (this v); debouncer := st |}.

(** The timer of the debounced function firing at time [now]. *)
Definition timerFires (now : Z) (v : View) : View :=
  let '(st, ran) := Lodash.timerExpired debounceConfig now (debouncer v) in
  {| this := invoke ran (this v); debouncer := st |}.

(** A response to an outstanding request arrives. *)
Definition responseArrives (r : Settlement) (v : View) : View :=
  {| this := settle r (this v); debouncer := debouncer v |}.

End StrokeCharts.

Import StrokeCharts.

(* ===================================================================== *)
(** ** Concrete inputs *)
(* ===================================================================== *)

Module Scenario.

Definition slot : string := "strokeUnitAccessChart".

(** The [<canvas ref="strokeUnitAccessChart">] of the template. *)
Definition canvas : Element := 1.

Definition snapshot : JsValue :=
  literal [("months", JArr [JStr "Jan"; JStr "Feb"]);
           ("stroke_unit_access", JArr [int 80; int 90]);
           ("stroke_unit_access_percentage", int 85)].

Definition laterSnapshot : JsValue :=
  literal [("months", JArr [JStr "Jan"; JStr "Feb"; JStr "Mar"]);
           ("stroke_unit_access", JArr [int 80; int 90; int 70]);
           ("stroke_unit_access_percentage", int 80)].

Definition serverError : JsValue := literal [("status", int 500)].

(** The component with its canvas in place, before any fetch. *)
Definition mounted : Component := initial {[slot := canvas]} JNull.

(** After the first successful fetch. *)
Definition rendered : Component := settle (Fulfilled snapshot) (fetchData mounted).

(** The same, once the canvas has left the page. *)
Definition unmounted : Component := set_refs ∅ rendered.

(** A descriptor for the same slot that asks for another chart kind. *)
Definition barDescriptor : Descriptor :=
  {| title := slot; chartType := "bar";
     d_data := literal [("labels", JArr [JStr "Mar"])];
     d_options := literal [] |}.

(** A second slot with its own canvas, next to the first. *)
Definition otherSlot : string := "nbmChart".

Definition otherCanvas : Element := 2.

Definition twoCanvases : Component :=
  initial {[slot := canvas; otherSlot := otherCanvas]} JNull.

Definition otherDescriptor : Descriptor :=
  {| title := otherSlot; chartType := "line";
     d_data := literal [("labels", JArr [JStr "Jan"])];
     d_options := percentageLineOptions |}.

End Scenario.

(* ===================================================================== *)
(** ** Basic facts about [updateChart] *)
(* ===================================================================== *)

Section UpdateChart.
Implicit Types (s : Component) (d : Descriptor) (l : loc) (c : Chart).

Lemma assign_and_update_heap l d s :
  heap (assign_and_update l d s) = alter (assigned d) l (heap s).
Proof.
  unfold assign_and_update, update, mutate; simpl.
  rewrite alter_alter_eq.
  destruct (alter _ l (heap s) !! l); reflexivity.
Qed.

Lemma assign_and_update_charts l d s :
  charts (assign_and_update l d s) = charts s.
Proof.
  unfold assign_and_update, update, mutate; simpl.
  destruct (alter _ l _ !! l); reflexivity.
Qed.

Lemma assign_and_update_trace l d s c :
  heap s !! l = Some c →
  trace (assign_and_update l d s)
  = trace s ++ [EvChartUpdate l (d_data d) (d_options d)].
Proof.
  intros Hl. unfold assign_and_update, update, mutate; simpl.
  rewrite alter_alter_eq, lookup_alter_eq, Hl. reflexivity.
Qed.

Lemma updateChart_skip d s :
  charts s !! title d = None → refs s !! title d = None → updateChart d s = s.
Proof. intros Hc Hr. unfold updateChart. rewrite Hc, Hr. reflexivity. Qed.

Lemma assign_and_update_fields l d s :
  data (assign_and_update l d s) = data s
  ∧ loading (assign_and_update l d s) = loading s
  ∧ refs (assign_and_update l d s) = refs s
  ∧ hospitals (assign_and_update l d s) = hospitals s
  ∧ next (assign_and_update l d s) = next s.
Proof.
  unfold assign_and_update, update, mutate; simpl.
  destruct (alter _ l _ !! l); simpl; auto.
Qed.

Lemma updateChart_registered d s l :
  charts s !! title d = Some l → updateChart d s = assign_and_update l d s.
Proof. intros Hc. unfold updateChart. rewrite Hc. reflexivity. Qed.

Lemma updateChart_create d s ctx :
  charts s !! title d = None → refs s !! title d = Some ctx →
  updateChart d s
  = assign_and_update (next s) d (construct (title d) ctx (chartType d) s).
Proof. intros Hc Hr. unfold updateChart. rewrite Hc, Hr. reflexivity. Qed.

Lemma updateChart_cases d s : updateChart_path d s.
Proof.
  destruct (charts s !! title d) as [l|] eqn:Hc.
  - eapply path_reuse; eauto using updateChart_registered.
  - destruct (refs s !! title d) as [ctx|] eqn:Hr.
    + eapply path_create; eauto using updateChart_create.
    + apply path_skip; auto using updateChart_skip.
Qed.

Lemma updateChart_refs d s : refs (updateChart d s) = refs s.
Proof.
  destruct (updateChart_cases d s) as [l _ E|_ _ E|ctx _ _ E]; rewrite E;
    trivial; by rewrite (proj1 (proj2 (proj2 (assign_and_update_fields _ _ _)))).
Qed.

Lemma updateChart_data_loading d s :
  data (updateChart d s) = data s ∧ loading (updateChart d s) = loading s.
Proof.
  destruct (updateChart_cases d s) as [l _ E|_ _ E|ctx _ _ E]; rewrite E; auto.
  - destruct (assign_and_update_fields l d s) as (? & ? & _); auto.
  - destruct (assign_and_update_fields (next s) d
                (construct (title d) ctx (chartType d) s)) as (-> & -> & _).
    auto.
Qed.

End UpdateChart.

(* ===================================================================== *)
(** ** Well-formedness is an invariant *)
(* ===================================================================== *)

Section Invariant.
Implicit Types (s : Component) (d : Descriptor) (l : loc) (t : string).

Lemma constructions_app t (tr1 tr2 : list Event) :
  constructions t (tr1 ++ tr2) = constructions t tr1 + constructions t tr2.
Proof. unfold constructions. by rewrite List.filter_app, length_app. Qed.

Lemma assign_and_update_trace_any l d s :
  ∃ evs, trace (assign_and_update l d s) = trace s ++ evs
         ∧ ∀ t, constructions t evs = 0.
Proof.
  unfold assign_and_update, update, mutate; simpl.
  destruct (alter _ l _ !! l) as [c|]; simpl.
  - by eexists [_].
  - exists []. by rewrite app_nil_r.
Qed.

Lemma assign_and_update_constructions l d s t :
  constructions t (trace (assign_and_update l d s)) = constructions t (trace s).
Proof.
  destruct (assign_and_update_trace_any l d s) as (evs & -> & Hevs).
  rewrite constructions_app, Hevs. lia.
Qed.

Lemma wf_initial rs hs : wf (initial rs hs).
Proof.
  split; simpl.
  - intros t l. by rewrite lookup_empty.
  - intros l [c Hc]. by rewrite lookup_empty in Hc.
  - intros t1 t2 l. by rewrite lookup_empty.
  - intros t. by rewrite lookup_empty.
Qed.

Lemma wf_assign_and_update l d s : wf s → wf (assign_and_update l d s).
Proof.
  intros [Hreg Hfresh Hdist Hcons].
  destruct (assign_and_update_fields l d s) as (_ & _ & _ & _ & Hnext).
  split.
  - intros t l'. rewrite assign_and_update_charts, assign_and_update_heap.
    rewrite lookup_alter_is_Some. apply Hreg.
  - intros l'. rewrite assign_and_update_heap, lookup_alter_is_Some, Hnext.
    apply Hfresh.
  - intros t1 t2 l'. rewrite assign_and_update_charts. apply Hdist.
  - intros t. rewrite assign_and_update_constructions, assign_and_update_charts.
    apply Hcons.
Qed.

Lemma is_construction_eq t t' l ctx ty :
  is_construction t (EvNewChart t' l ctx ty) = bool_decide (t = t').
Proof.
  simpl. destruct (String.eqb_spec t t').
  - by rewrite bool_decide_eq_true_2.
  - by rewrite bool_decide_eq_false_2.
Qed.

Lemma wf_construct t ctx ty s :
  wf s → charts s !! t = None → wf (construct t ctx ty s).
Proof.
  intros [Hreg Hfresh Hdist Hcons] Hnone. unfold construct. split; simpl.
  - intros t' l. rewrite lookup_insert. case_decide as Ht.
    + intros [= <-]. rewrite lookup_insert_eq. eauto.
    + intros Hl. specialize (Hreg _ _ Hl).
      rewrite lookup_insert_ne; [done|]. specialize (Hfresh _ Hreg). lia.
  - intros l. rewrite lookup_insert_is_Some. intros [<-|[_ Hl]]; [lia|].
    specialize (Hfresh _ Hl). lia.
  - intros t1 t2 l. rewrite !lookup_insert.
    repeat case_decide; subst; try done.
    + intros [= <-] Hl. apply Hreg, Hfresh in Hl. lia.
    + intros Hl [= <-]. apply Hreg, Hfresh in Hl. lia.
    + apply Hdist.
  - intros t'. rewrite constructions_app, Hcons. unfold constructions.
    cbn [List.filter]. rewrite is_construction_eq, lookup_insert.
    case_bool_decide as E; case_decide as E'; subst; try congruence; simpl.
    + by rewrite Hnone.
    + lia.
Qed.

Lemma wf_updateChart d s : wf s → wf (updateChart d s).
Proof.
  intros Hwf.
  destruct (updateChart_cases d s) as [l _ E|_ _ E|ctx Hc _ E]; rewrite E.
  - by apply wf_assign_and_update.
  - done.
  - by apply wf_assign_and_update, wf_construct.
Qed.

Lemma wf_emit e s : (∀ t, is_construction t e = false) → wf s → wf (emit e s).
Proof.
  intros He [Hreg Hfresh Hdist Hcons]. split; simpl; auto.
  intros t. rewrite constructions_app, Hcons. unfold constructions.
  simpl. rewrite He. simpl. lia.
Qed.

Lemma wf_renderCharts s : wf s → wf (renderCharts s).
Proof.
  intros Hwf. unfold renderCharts.
  assert (wf (emit EvRenderCharts s)) as Hwf' by by apply wf_emit.
  simpl. destruct (truthy (data s)); [|done]. by apply wf_updateChart.
Qed.

Lemma wf_perform a s : wf s → wf (perform a s).
Proof.
  intros Hwf. destruct a as [|[body|err]| |d|rs]; simpl.
  - apply wf_emit; [done|]. by destruct Hwf.
  - apply wf_renderCharts. by destruct Hwf.
  - by apply wf_emit.
  - by apply wf_renderCharts.
  - by apply wf_updateChart.
  - by destruct Hwf.
Qed.

Lemma wf_run acts s : wf s → wf (run acts s).
Proof.
  revert s. induction acts as [|a acts IH]; intros s Hwf; [done|].
  simpl. apply IH, wf_perform, Hwf.
Qed.

Lemma reachable_wf s : reachable s → wf s.
Proof. intros (rs & hs & acts & ->). apply wf_run, wf_initial. Qed.

Lemma reachable_run acts s : reachable s → reachable (run acts s).
Proof.
  intros (rs & hs & acts0 & ->). exists rs, hs, (acts0 ++ acts).
  unfold run. by rewrite fold_left_app.
Qed.

End Invariant.

Create HintDb wf discriminated.
#[global] Hint Resolve wf_initial wf_assign_and_update wf_construct
  wf_updateChart wf_renderCharts wf_perform wf_run reachable_wf : wf.

(* ===================================================================== *)
(** ** Reconciling a slot whose container is absent *)
(* ===================================================================== *)

Section AbsentContainer.
Import Scenario.

(** With the canvas gone but the chart still registered, [updateChart] goes
    on to assign to the registered object and to redraw it. *)
Lemma absent_container_registered_chart_is_mutated :
  refs unmounted !! title (strokeUnitAccess laterSnapshot) = None
  ∧ chart_data <$> heap (updateChart (strokeUnitAccess laterSnapshot) unmounted) !! 0
    ≠ chart_data <$> heap unmounted !! 0
  ∧ trace (updateChart (strokeUnitAccess laterSnapshot) unmounted)
    ≠ trace unmounted.
Proof.
  split; [reflexivity|]. split.
  - vm_compute. congruence.
  - vm_compute. intros H. apply (f_equal length) in H. discriminate H.
Qed.

(** C1 (as amended).  When the container of a slot is absent and no chart is
    registered for the slot, [updateChart] returns the component exactly as
    it was: no registry entry, no object, no field and no trace entry is
    added or changed. *)
Theorem absent_container_unregistered_noop (d : Descriptor) (s : Component) :
  refs s !! title d = None →
  charts s !! title d = None →
  updateChart d s = s.
Proof. intros Hr Hc. by apply updateChart_skip. Qed.

Lemma absent_container_unregistered_noop_witness :
  updateChart barDescriptor (initial ∅ JNull) = initial ∅ JNull.
Proof.
  apply (absent_container_unregistered_noop barDescriptor (initial ∅ JNull));
    reflexivity.
Defined.

End AbsentContainer.

(* ===================================================================== *)
(** ** The fetch pipeline *)
(* ===================================================================== *)

Section Fetch.
Import Scenario.
Implicit Types (s : Component) (err body : JsValue).

(** C4.  When the request of [fetchData] is rejected, the whole cycle adds
    two entries to the trace, the one request and the call of
    [utils.handleRequestError] with the error: no second request, no entry
    into [renderCharts], no chart constructed or updated.  The snapshot, the
    registry, the chart objects and the summary paragraph are those from
    before the fetch.  And whatever happened to the component while the
    request was pending, the rejection itself only adds the call of the
    handler. *)
Theorem fetch_failure_preserves_render s err (acts : list Action) :
  let failed := settle (Rejected err) (fetchData s) in
  let pending := run acts (fetchData s) in
  (trace failed
   = trace s ++ [EvRequestGet "/stroke-chart-data/"
                   (literal [("hospitals", hospitals s)]);
                 EvHandleRequestError err]
   ∧ data failed = data s
   ∧ chart_state failed = chart_state s
   ∧ next failed = next s
   ∧ yearToDate failed = yearToDate s)
  ∧ (trace (settle (Rejected err) pending)
     = trace pending ++ [EvHandleRequestError err]
     ∧ data (settle (Rejected err) pending) = data pending
     ∧ chart_state (settle (Rejected err) pending) = chart_state pending
     ∧ next (settle (Rejected err) pending) = next pending
     ∧ yearToDate (settle (Rejected err) pending) = yearToDate pending).
Proof.
  simpl. rewrite <- app_assoc. repeat split.
Qed.

Lemma updateChart_loading d s : loading (updateChart d s) = loading s.
Proof. apply updateChart_data_loading. Qed.

Lemma renderCharts_loading s : loading (renderCharts s) = loading s.
Proof.
  unfold renderCharts. simpl. destruct (truthy (data s)); [|done].
  by rewrite updateChart_loading.
Qed.

Lemma perform_keeps_loading a s :
  is_success a = false → loading s = true → loading (perform a s) = true.
Proof.
  destruct a as [|[body|err]| |d|rs]; simpl; intros Ha Hs;
    rewrite ?renderCharts_loading, ?updateChart_loading; done.
Qed.

Lemma run_keeps_loading acts s :
  forallb (λ a, negb (is_success a)) acts = true →
  loading s = true → loading (run acts s) = true.
Proof.
  revert s. induction acts as [|a acts IH]; simpl; intros s Ha Hs; [done|].
  apply andb_true_iff in Ha as [Ha Hacts]. apply negb_true_iff in Ha.
  apply IH; [done|]. by apply perform_keeps_loading.
Qed.

(** C10.  [fetchData] raises [loading]; the [.then] callback lowers it; the
    [.catch] callback leaves it alone.  So after a rejected fetch [loading]
    is [true], and it stays [true] through every history that contains no
    successful response; the next successful response lowers it. *)
Theorem loading_stays_set_after_failure s err acts :
  forallb (λ a, negb (is_success a)) acts = true →
  let failed := settle (Rejected err) (fetchData s) in
  loading (fetchData s) = true
  ∧ loading failed = true
  ∧ loading (run acts failed) = true
  ∧ ∀ body, loading (settle (Fulfilled body) (run acts failed)) = false.
Proof.
  intros Hacts failed. repeat split.
  - by apply run_keeps_loading.
  - intros body. cbn [settle]. unfold fetchData_then.
    by rewrite renderCharts_loading.
Qed.

Lemma loading_stays_set_after_failure_witness :
  loading (run [ActRenderCharts; ActFetchData; ActSettle (Rejected serverError);
                ActUpdateChart barDescriptor]
             (settle (Rejected serverError) (fetchData rendered))) = true.
Proof.
  apply (loading_stays_set_after_failure rendered serverError
           [ActRenderCharts; ActFetchData; ActSettle (Rejected serverError);
            ActUpdateChart barDescriptor]).
  reflexivity.
Defined.

End Fetch.

(* ===================================================================== *)
(** ** The end-to-end scenario *)
(* ===================================================================== *)

Section EndToEnd.
Import Scenario.

(** C9.  With the canvas of ["strokeUnitAccessChart"] in place, fetching the
    snapshot [{months: ["Jan","Feb"], stroke_unit_access: [80, 90],
    stroke_unit_access_percentage: 85}] leaves one registered chart, the
    only one ever constructed, a line chart on that canvas whose labels are
    [["Jan","Feb"]] and whose single series is [[80, 90]]; that is also what
    [update] drew.  The text generated from the snapshot is ["85%"], shown in
    the paragraph ["Year to date: 85%"]. *)
Theorem end_to_end_scenario (ctx : Element) (hs : JsValue) :
  let s := settle (Fulfilled snapshot) (fetchData (initial {[slot := ctx]} hs)) in
  ∃ c,
    charts s = {[slot := 0]}
    ∧ heap s = {[0 := c]}
    ∧ constructions slot (trace s) = 1
    ∧ chart_ctx c = ctx
    ∧ chart_type c = "line"
    ∧ prop "labels" (chart_data c) = JArr [JStr "Jan"; JStr "Feb"]
    ∧ prop "datasets" (chart_data c)
      = JArr [literal [("label", JStr "Percentage");
                       ("data", JArr [int 80; int 90]);
                       ("borderColor", JStr "#4472c4");
                       ("backgroundColor", JStr "#a5a5a5");
                       ("lineTension", JNum (1 # 10));
                       ("fill", JBool false)]]
    ∧ last (trace s) = Some (EvChartUpdate 0 (chart_data c) (chart_options c))
    ∧ percentageText s = Some "85%"
    ∧ yearToDate s = Some "Year to date: 85%".
Proof.
  intros s. eexists. repeat split; vm_compute; reflexivity.
Qed.

End EndToEnd.

(* ===================================================================== *)
(** ** The debounced trigger *)
(* ===================================================================== *)

(** *** Bursts in general *)

Section Burst.
Import Lodash.
Open Scope Z_scope.

Variable cfg : Config.
Hypothesis leading_on : leading cfg = true.
Hypothesis trailing_on : trailing cfg = true.
Hypothesis no_maxWait : maxWait cfg = None.
Hypothesis wait_pos : 0 < wait cfg.

Implicit Types (t d inv : Z) (la : bool) (fuel : nat) (ts : list Z).

(** Decide the time comparisons of the goal from the hypotheses. *)
Ltac compare_times :=
  repeat match goal with
  | |- context [?a <=? ?b] =>
      first [ replace (a <=? b) with true by (symmetry; apply Z.leb_le; lia)
            | replace (a <=? b) with false by (symmetry; apply Z.leb_gt; lia) ]
  | |- context [?a <? ?b] =>
      first [ replace (a <? b) with true by (symmetry; apply Z.ltb_lt; lia)
            | replace (a <? b) with false by (symmetry; apply Z.ltb_ge; lia) ]
  end.

(** The first call of a silent period runs the function and arms the timer. *)
Lemma debounced_leading t :
  debounced cfg t idle = (mkState false (Some t) t (Some (t + wait cfg)), true).
Proof.
  unfold debounced, leadingEdge, invokeFunc. simpl. by rewrite leading_on.
Qed.

(** A call less than [wait] after the previous one only records itself. *)
Lemma debounced_coalesced la t inv d t' :
  t ≤ t' < t + wait cfg →
  debounced cfg t' (mkState la (Some t) inv (Some d))
  = (mkState true (Some t') inv (Some d), false).
Proof.
  intros Ht. unfold debounced, shouldInvoke. simpl. rewrite no_maxWait.
  by compare_times.
Qed.

(** A timer that expires before the last call is [wait] old re-arms itself
    for the moment it will be. *)
Lemma timerExpired_early la t inv d :
  t ≤ d < t + wait cfg →
  timerExpired cfg d (mkState la (Some t) inv (Some d))
  = (mkState la (Some t) inv (Some (t + wait cfg)), false).
Proof.
  intros Hd. unfold timerExpired, shouldInvoke, remainingWait. simpl.
  rewrite no_maxWait. compare_times. simpl. do 3 f_equal. lia.
Qed.

(** A timer that expires when the last call is [wait] old is the trailing
    edge: the function runs if a call is waiting. *)
Lemma timerExpired_trailing la t inv :
  timerExpired cfg (t + wait cfg) (mkState la (Some t) inv (Some (t + wait cfg)))
  = (mkState false (Some t) (if la then t + wait cfg else inv) None, la).
Proof.
  unfold timerExpired, shouldInvoke, trailingEdge, invokeFunc. simpl.
  compare_times. simpl. rewrite trailing_on. by destruct la.
Qed.

(** Up to the next call of a burst no function run happens; the timer is
    pushed beyond that call. *)
Lemma runTimers_in_burst fuel la t inv d t' :
  t < d ≤ t + wait cfg → t ≤ t' < t + wait cfg →
  ∃ d', runTimers cfg (S (S fuel)) (Some t') (mkState la (Some t) inv (Some d))
        = (mkState la (Some t) inv (Some d'), [])
        ∧ t' < d' ≤ t + wait cfg.
Proof.
  intros Hd Ht'. destruct (Z.le_gt_cases d t') as [Hdue|Hlater].
  - exists (t + wait cfg). split; [|lia].
    cbn [runTimers timerId]. compare_times.
    rewrite timerExpired_early by lia. cbn [timerId]. by compare_times.
  - exists d. split; [|lia]. cbn [runTimers timerId]. by compare_times.
Qed.

(** After the last call the timer runs down to the trailing edge. *)
Lemma runTimers_drain fuel la t inv d :
  t < d ≤ t + wait cfg →
  runTimers cfg (S (S (S fuel))) None (mkState la (Some t) inv (Some d))
  = (mkState false (Some t) (if la then t + wait cfg else inv) None,
     if la then [t + wait cfg] else []).
Proof.
  intros Hd. destruct (decide (d = t + wait cfg)) as [->|Hne].
  - cbn [runTimers timerId]. rewrite timerExpired_trailing. cbn [timerId].
    by destruct la.
  - cbn [runTimers timerId]. rewrite timerExpired_early by lia.
    cbn [timerId]. rewrite timerExpired_trailing. cbn [timerId].
    by destruct la.
Qed.

Lemma last_cons_default ts t t' : List.last (t' :: ts) t = List.last ts t'.
Proof.
  revert t t'. induction ts as [|x ts IH]; intros t t'; [done|].
  change (List.last (t' :: x :: ts) t) with (List.last (x :: ts) t).
  by rewrite !IH.
Qed.

Lemma runCalls_in_burst fuel ts la t inv d :
  t < d ≤ t + wait cfg →
  burst (wait cfg) t ts = true →
  let waiting := la || bool_decide (ts ≠ []) in
  let tn := List.last ts t in
  runCalls cfg (S (S (S fuel))) ts (mkState la (Some t) inv (Some d))
  = (mkState false (Some tn) (if waiting then tn + wait cfg else inv) None,
     if waiting then [tn + wait cfg] else []).
Proof.
  revert la t d. induction ts as [|t' ts IH]; intros la t d Hd Hburst.
  - simpl. rewrite orb_false_r. by apply runTimers_drain.
  - cbn [burst] in Hburst.
    apply andb_true_iff in Hburst as [Hclose Hburst].
    apply andb_true_iff in Hclose as [Hle Hlt].
    apply Z.leb_le in Hle. apply Z.ltb_lt in Hlt.
    destruct (runTimers_in_burst (S fuel) la t inv d t') as (d' & Hrun & Hd');
      [lia..|].
    cbn [runCalls]. rewrite Hrun, debounced_coalesced by lia.
    specialize (IH true t' d'). rewrite IH by (done || lia).
    rewrite orb_true_r.
    by rewrite last_cons_default.
Qed.

(** From the idle state, a burst of calls runs the function at the first
    call and, if more calls followed, once more [wait] after the last. *)
Lemma runCalls_burst fuel t0 ts :
  (3 ≤ fuel)%nat →
  burst (wait cfg) t0 ts = true →
  (runCalls cfg fuel (t0 :: ts) idle).2
  = t0 :: (if bool_decide (ts ≠ []) then [List.last ts t0 + wait cfg] else []).
Proof.
  intros Hfuel Hburst. destruct fuel as [|[|[|fuel]]]; [lia..|].
  cbn [runCalls]. cbn [runTimers idle timerId].
  rewrite debounced_leading.
  rewrite (runCalls_in_burst fuel ts false t0 t0 (t0 + wait cfg)) by (done || lia).
  reflexivity.
Qed.

End Burst.

(** The debounced function of the component is such a one. *)
Lemma debouncedFetchData_burst (fuel : nat) (t0 : Z) (ts : list Z) :
  3 ≤ fuel →
  Lodash.burst 1000 t0 ts = true →
  (Lodash.runCalls debounceConfig fuel (t0 :: ts) Lodash.idle).2
  = t0 :: (if bool_decide (ts ≠ []) then [(List.last ts t0 + 1000)%Z] else []).
Proof. intros Hfuel Hburst. by apply runCalls_burst. Qed.

(** *** The burst 0, 100, 300 *)

Section Debounce.
Import Scenario.
Open Scope Z_scope.

(** For the burst 0, 100, 300 lodash does not run the function at 1000: the
    timer that expires then finds the last call only 700 ms old and re-arms
    itself for the remaining 300 ms. *)
Lemma burst_has_no_run_at_1000 :
  (Lodash.runCalls debounceConfig 3 [0; 100; 300] Lodash.idle).2 ≠ [0; 1000].
Proof. vm_compute. congruence. Qed.

(** C5 (as amended).  [debounce(fetchData, 1000, {leading: true})] called at
    0, 100 and 300 runs [fetchData] at 0, on the leading edge, and once more
    at 1300, that is 1000 ms after the last call of the burst: twice in all,
    and at neither 100, 300 nor 1000.  Afterwards no timer is pending. *)
Theorem debounce_burst_runs (fuel : nat) :
  (3 ≤ fuel)%nat →
  Lodash.runCalls debounceConfig fuel [0; 100; 300] Lodash.idle
  = ({| Lodash.lastArgs := false; Lodash.lastCallTime := Some 300;
        Lodash.lastInvokeTime := 1300; Lodash.timerId := None |},
     [0; 1300]).
Proof.
  intros Hfuel.
  destruct fuel as [|[|[|fuel]]]; [lia..|].
  reflexivity.
Qed.

Lemma debounce_burst_runs_witness :
  (Lodash.runCalls debounceConfig 5 [0; 100; 300] Lodash.idle).2 = [0; 1300].
Proof.
  rewrite (debounce_burst_runs 5); [reflexivity|]. lia.
Defined.

End Debounce.

(* ===================================================================== *)
(** ** Entry points of the fetch-and-render pipeline *)
(* ===================================================================== *)

Section Pipeline.
Import Scenario.
Open Scope Z_scope.

(** The initial load does not pass through the debounced wrapper: [created]
    leaves the closure of [debounce] as it was, so a call of the wrapper at
    the same instant still finds a leading edge and sends a second request.
    Two calls of the wrapper at the same instant send one. *)
Lemma initial_load_bypasses_debounce :
  let v0 := mount {[slot := canvas]} JNull in
  debouncer (created v0) = Lodash.idle
  ∧ requests (trace (this (debouncedFetchData 0 (created v0)))) = 2%nat
  ∧ requests (trace (this (debouncedFetchData 0 (debouncedFetchData 0 v0)))) = 1%nat.
Proof. repeat split. Qed.

Lemma renderCharts_trace (s : Component) :
  ∃ evs, trace (renderCharts s) = trace s ++ EvRenderCharts :: evs.
Proof.
  unfold renderCharts. simpl. destruct (truthy (data s)).
  - set (s' := emit EvRenderCharts s).
    set (d := strokeUnitAccess (data s)).
    destruct (updateChart_cases d s') as [l _ E|_ _ E|ctx _ _ E]; rewrite E.
    + destruct (assign_and_update_trace_any l d s') as (evs & -> & _).
      exists evs. simpl. by rewrite <- app_assoc.
    + by exists [].
    + destruct (assign_and_update_trace_any (next s') d
                  (construct (title d) ctx (chartType d) s')) as (evs & -> & _).
      eexists. simpl. rewrite <- !app_assoc. reflexivity.
  - by exists [].
Qed.

(** C6 (as amended).  The [created] hook calls [fetchData] directly: the
    request goes out and the debounce closure is not touched.  A call of
    [debouncedFetchData] reaches [fetchData] through lodash: on a leading
    edge (no timer pending, and no earlier call or one at least [wait] old)
    the request goes out at once and the timer is armed for 1000 ms later.
    When a request is fulfilled, [fetchData] stores the body, lowers
    [loading] and enters [renderCharts]. *)
Theorem pipeline_entry_points (v : View) (now : Z) (body : JsValue) :
  Lodash.timerId (debouncer v) = None →
  Lodash.shouldInvoke debounceConfig now (debouncer v) = true →
  let request := EvRequestGet "/stroke-chart-data/"
                   (literal [("hospitals", hospitals (this v))]) in
  (trace (this (created v)) = trace (this v) ++ [request]
   ∧ debouncer (created v) = debouncer v)
  ∧ (trace (this (debouncedFetchData now v)) = trace (this v) ++ [request]
     ∧ Lodash.timerId (debouncer (debouncedFetchData now v)) = Some (now + 1000)
     ∧ Lodash.lastCallTime (debouncer (debouncedFetchData now v)) = Some now)
  ∧ (data (this (responseArrives (Fulfilled body) v)) = body
     ∧ loading (this (responseArrives (Fulfilled body) v)) = false
     ∧ ∃ evs, trace (this (responseArrives (Fulfilled body) v))
              = trace (this v) ++ EvRenderCharts :: evs).
Proof.
  intros Htimer Hinvoke request. split; [|split].
  - split; reflexivity.
  - unfold debouncedFetchData, Lodash.debounced.
    rewrite Hinvoke, Htimer. simpl. auto.
  - cbn [responseArrives this settle]. unfold fetchData_then.
    destruct (updateChart_data_loading
                (strokeUnitAccess body)
                (emit EvRenderCharts (set_loading false (set_data body (this v)))))
      as [Hd Hl].
    repeat split.
    + unfold renderCharts. simpl. destruct (truthy body); [|done].
      simpl in Hd. exact Hd.
    + by rewrite renderCharts_loading.
    + destruct (renderCharts_trace (set_loading false (set_data body (this v))))
        as [evs Hevs].
      exists evs. exact Hevs.
Qed.

Lemma pipeline_entry_points_witness :
  trace (this (created (mount {[slot := canvas]} JNull)))
  = [EvRequestGet "/stroke-chart-data/" (literal [("hospitals", JNull)])].
Proof.
  apply (pipeline_entry_points (mount {[slot := canvas]} JNull) 0 snapshot);
    reflexivity.
Defined.

End Pipeline.

(* ===================================================================== *)
(** ** What [updateChart] does to a chart object *)
(* ===================================================================== *)

Section Objects.
Import Scenario.
Implicit Types (s : Component) (d : Descriptor) (l : loc) (c : Chart).

Lemma same_chart_assigned d c : same_chart c (assigned d c).
Proof. by split. Qed.

Lemma updateChart_keeps_chart d s l c :
  wf s → heap s !! l = Some c →
  ∃ c', heap (updateChart d s) !! l = Some c' ∧ same_chart c c'.
Proof.
  intros Hwf Hl.
  destruct (updateChart_cases d s) as [l0 _ E|_ _ E|ctx _ _ E]; rewrite E.
  - rewrite assign_and_update_heap, lookup_alter. case_decide as Hll.
    + subst l0. rewrite Hl. eexists; split; [reflexivity|].
      apply same_chart_assigned.
    + by exists c.
  - by exists c.
  - rewrite assign_and_update_heap. simpl.
    assert (l < next s) as Hlt by (apply (wf_fresh s Hwf); eauto).
    rewrite lookup_alter_ne, lookup_insert_ne by lia. by exists c.
Qed.

Lemma perform_keeps_chart a s l c :
  wf s → heap s !! l = Some c →
  ∃ c', heap (perform a s) !! l = Some c' ∧ same_chart c c'.
Proof.
  intros Hwf Hl. destruct a as [|[body|err]| |d|rs]; simpl;
    try (by exists c).
  - unfold fetchData_then, renderCharts. simpl.
    destruct (truthy body); [|by exists c].
    apply updateChart_keeps_chart; [|done].
    apply wf_emit; [done|]. by destruct Hwf.
  - unfold renderCharts. simpl. destruct (truthy (data s)); [|by exists c].
    apply updateChart_keeps_chart; [|done]. by apply wf_emit.
  - by apply updateChart_keeps_chart.
Qed.

Lemma run_keeps_chart acts s l c :
  wf s → heap s !! l = Some c →
  ∃ c', heap (run acts s) !! l = Some c' ∧ same_chart c c'.
Proof.
  revert s c. induction acts as [|a acts IH]; intros s c Hwf Hl; simpl.
  - by exists c.
  - destruct (perform_keeps_chart a s l c Hwf Hl) as (c1 & Hl1 & Hctx & Hty).
    destruct (IH (perform a s) c1 (wf_perform a s Hwf) Hl1)
      as (c2 & Hl2 & Hctx2 & Hty2).
    exists c2. split; [done|]. split; congruence.
Qed.

(** C7.  Reconciling a slot that has a registered chart constructs nothing:
    the registry and the allocation counter stay as they are, the registered
    object keeps its element and its kind and receives the descriptor's data
    and options, whatever [chartType] the descriptor carries, and the one
    trace entry is the [update] of that object.  Through every later history
    of the component the object keeps the kind it was constructed with. *)
Theorem chart_kind_is_never_changed s d l c (acts : list Action) :
  reachable s →
  charts s !! title d = Some l →
  heap s !! l = Some c →
  let s' := updateChart d s in
  charts s' = charts s
  ∧ next s' = next s
  ∧ heap s' = <[l := {| chart_ctx := chart_ctx c; chart_type := chart_type c;
                        chart_data := d_data d; chart_options := d_options d |}]>
              (heap s)
  ∧ trace s' = trace s ++ [EvChartUpdate l (d_data d) (d_options d)]
  ∧ ∃ c', heap (run acts s') !! l = Some c'
          ∧ chart_type c' = chart_type c ∧ chart_ctx c' = chart_ctx c.
Proof.
  intros Hreach Hc Hl s'. subst s'.
  rewrite (updateChart_registered d s l Hc).
  rewrite assign_and_update_charts, assign_and_update_heap.
  rewrite (assign_and_update_trace l d s c Hl).
  destruct (assign_and_update_fields l d s) as (_ & _ & _ & _ & ->).
  repeat split.
  - apply map_eq. intros l'. rewrite lookup_alter, lookup_insert.
    case_decide; [|done]. subst l'. by rewrite Hl.
  - pose proof (reachable_wf s Hreach) as Hwf.
    destruct (run_keeps_chart acts (assign_and_update l d s) l (assigned d c))
      as (c' & Hc' & Hctx & Hty).
    + auto with wf.
    + by rewrite assign_and_update_heap, lookup_alter_eq, Hl.
    + exists c'. auto.
Qed.

Lemma chart_kind_is_never_changed_witness :
  ∃ c', heap (run [ActUpdateChart barDescriptor; ActRenderCharts]
                (updateChart barDescriptor rendered)) !! 0 = Some c'
        ∧ chart_type c' = "line" ∧ chart_ctx c' = canvas.
Proof.
  apply (chart_kind_is_never_changed rendered barDescriptor 0
           (assigned (strokeUnitAccess snapshot) (new_Chart canvas "line"))
           [ActUpdateChart barDescriptor; ActRenderCharts]).
  - exists {[slot := canvas]}, JNull,
      [ActFetchData; ActSettle (Fulfilled snapshot)]. reflexivity.
  - reflexivity.
  - reflexivity.
Defined.

(** C8.  Whenever [updateChart] gets past its two guards, because the slot
    has a registered chart or, failing that, a container, the chart
    registered for the slot afterwards holds exactly the descriptor's data
    and options, and the last thing the call did was [update] on that object
    with these values in place.  No other object is touched. *)
Theorem updateChart_assigns_then_updates s d :
  reachable s →
  is_Some (charts s !! title d) ∨ is_Some (refs s !! title d) →
  let s' := updateChart d s in
  ∃ l c,
    charts s' !! title d = Some l
    ∧ heap s' !! l = Some c
    ∧ chart_data c = d_data d
    ∧ chart_options c = d_options d
    ∧ last (trace s') = Some (EvChartUpdate l (d_data d) (d_options d))
    ∧ ∀ l', l' ≠ l → heap s' !! l' = heap s !! l'.
Proof.
  intros Hreach Hpast s'. subst s'.
  pose proof (reachable_wf s Hreach) as Hwf.
  destruct (updateChart_cases d s) as [l Hc E|Hc Hr E|ctx Hc Hr E]; rewrite E.
  - destruct (wf_registered s Hwf _ _ Hc) as [c Hl].
    exists l, (assigned d c).
    rewrite assign_and_update_charts, assign_and_update_heap, lookup_alter_eq, Hl.
    rewrite (assign_and_update_trace l d s c Hl), last_snoc.
    repeat split; try done.
    intros l' Hne. by rewrite lookup_alter_ne.
  - destruct Hpast as [[? Hc']|[? Hr']]; congruence.
  - set (s1 := construct (title d) ctx (chartType d) s).
    assert (heap s1 !! next s = Some (new_Chart ctx (chartType d))) as Hl
      by apply lookup_insert_eq.
    exists (next s), (assigned d (new_Chart ctx (chartType d))).
    rewrite assign_and_update_charts, assign_and_update_heap, lookup_alter_eq, Hl.
    rewrite (assign_and_update_trace _ d s1 _ Hl), last_snoc.
    repeat split; try done.
    + apply lookup_insert_eq.
    + intros l' Hne. rewrite lookup_alter_ne by done.
      simpl. by rewrite lookup_insert_ne.
Qed.

Lemma updateChart_assigns_then_updates_witness :
  ∃ l c,
    charts (updateChart barDescriptor mounted) !! slot = Some l
    ∧ heap (updateChart barDescriptor mounted) !! l = Some c
    ∧ chart_data c = literal [("labels", JArr [JStr "Mar"])]
    ∧ chart_options c = literal []
    ∧ last (trace (updateChart barDescriptor mounted))
      = Some (EvChartUpdate l (literal [("labels", JArr [JStr "Mar"])])
                (literal []))
    ∧ ∀ l', l' ≠ l →
        heap (updateChart barDescriptor mounted) !! l' = heap mounted !! l'.
Proof.
  apply (updateChart_assigns_then_updates mounted barDescriptor).
  - exists {[slot := canvas]}, JNull, []. reflexivity.
  - right. exists canvas. reflexivity.
Defined.

End Objects.

(* ===================================================================== *)
(** ** One chart per slot *)
(* ===================================================================== *)

Section CreateOnce.
Import Scenario.
Implicit Types (s : Component) (d : Descriptor) (l : loc) (t : string).

Lemma reconcile_run ds s : reconcile ds s = run (map ActUpdateChart ds) s.
Proof.
  revert s. induction ds as [|d ds IH]; intros s; [done|]. simpl. apply IH.
Qed.

Lemma reconcile_refs ds s : refs (reconcile ds s) = refs s.
Proof.
  revert s. induction ds as [|d ds IH]; intros s; [done|].
  simpl. by rewrite IH, updateChart_refs.
Qed.

(** A registration is never dropped nor redirected. *)
Lemma updateChart_keeps_registration d s t l :
  charts s !! t = Some l → charts (updateChart d s) !! t = Some l.
Proof.
  intros Ht.
  destruct (updateChart_cases d s) as [l0 _ E|_ _ E|ctx Hc _ E]; rewrite E;
    rewrite ?assign_and_update_charts; [done..|].
  simpl. rewrite lookup_insert_ne; [done|]. congruence.
Qed.

Lemma reconcile_keeps_registration ds s t l :
  charts s !! t = Some l → charts (reconcile ds s) !! t = Some l.
Proof.
  revert s. induction ds as [|d ds IH]; intros s Ht; [done|].
  simpl. by apply IH, updateChart_keeps_registration.
Qed.

Lemma updateChart_registers d s :
  is_Some (refs s !! title d) → is_Some (charts (updateChart d s) !! title d).
Proof.
  intros [ctx Hr].
  destruct (updateChart_cases d s) as [l Hc E|_ Hr' E|ctx' Hc _ E]; rewrite E;
    rewrite ?assign_and_update_charts.
  - eauto.
  - congruence.
  - simpl. rewrite lookup_insert_eq. eauto.
Qed.

Lemma wf_at_most_one s t : wf s → constructions t (trace s) ≤ 1.
Proof.
  intros Hwf. rewrite (wf_constructed s Hwf). destruct (charts s !! t); lia.
Qed.

(** C2.  Let the container of slot [t] be present, and let [updateChart] be
    called for [t] any number N ≥ 1 of times in a row.  Then one chart has
    been constructed for [t] in the whole life of the component; a chart was
    constructed during these calls exactly when the registry had no entry
    for [t] before them; after the first call and after every later one the
    registry names the same object for [t]; and at that point and at every
    later point of any history no slot has had more than one chart
    constructed for it. *)
Theorem create_once s t (ds : list Descriptor) (acts : list Action) :
  reachable s →
  is_Some (refs s !! t) →
  ds ≠ [] →
  Forall (λ d, title d = t) ds →
  let s' := reconcile ds s in
  constructions t (trace s') = 1
  ∧ constructions t (trace s')
    = constructions t (trace s)
      + match charts s !! t with Some _ => 0 | None => 1 end
  ∧ (∃ l, ∀ n, 0 < n ≤ length ds →
          charts (reconcile (take n ds) s) !! t = Some l)
  ∧ ∀ t', constructions t' (trace s) ≤ 1
          ∧ constructions t' (trace (run acts s')) ≤ 1.
Proof.
  intros Hreach Href Hne Hds s'.
  pose proof (reachable_wf s Hreach) as Hwf.
  assert (wf s') as Hwf' by (subst s'; rewrite reconcile_run; auto with wf).
  destruct ds as [|d ds]; [done|]. clear Hne.
  apply Forall_cons in Hds as [Hd Hds]. subst t.
  destruct (updateChart_registers d s Href) as [l Hl].
  assert (charts s' !! title d = Some l) as Hl'.
  { subst s'. simpl. by apply reconcile_keeps_registration. }
  assert (constructions (title d) (trace s') = 1) as Hone.
  { by rewrite (wf_constructed s' Hwf'), Hl'. }
  split; [done|]. split; [|split].
  - rewrite Hone, (wf_constructed s Hwf). by destruct (charts s !! title d).
  - exists l. intros [|n] [Hpos Hlen]; [lia|].
    simpl. by apply reconcile_keeps_registration.
  - intros t'. split; apply wf_at_most_one; auto with wf.
Qed.

Lemma create_once_witness :
  constructions slot
    (trace (reconcile [strokeUnitAccess snapshot; barDescriptor;
                       strokeUnitAccess laterSnapshot] mounted)) = 1.
Proof.
  apply (create_once mounted slot
           [strokeUnitAccess snapshot; barDescriptor;
            strokeUnitAccess laterSnapshot] []).
  - exists {[slot := canvas]}, JNull, []. reflexivity.
  - exists canvas. reflexivity.
  - discriminate.
  - repeat constructor.
Defined.

End CreateOnce.

(* ===================================================================== *)
(** ** Reconciling twice *)
(* ===================================================================== *)

Section Idempotence.
Import Scenario.
Implicit Types (s : Component) (d : Descriptor) (l : loc) (c : Chart)
  (C : gmap string loc) (o : option Chart) (ds : list Descriptor).

Lemma assigned_absorbs d c c' : same_chart c c' → assigned d c' = assigned d c.
Proof.
  intros [Hctx Hty]. unfold assigned, ChartJs.set_options, ChartJs.set_data.
  simpl. by rewrite Hctx, Hty.
Qed.

Lemma assigned_idem d c : assigned d (assigned d c) = assigned d c.
Proof. reflexivity. Qed.

(** *** A pass that constructs nothing *)

Lemma settled_updateChart d s l :
  settled d s →
  charts (updateChart d s) = charts s
  ∧ next (updateChart d s) = next s
  ∧ heap (updateChart d s) !! l = touch (charts s) l (heap s !! l) d.
Proof.
  intros Hset. unfold touch.
  destruct (updateChart_cases d s) as [l0 Hc E|Hc _ E|ctx Hc Hr E]; rewrite E.
  - rewrite assign_and_update_charts, assign_and_update_heap, lookup_alter, Hc.
    destruct (assign_and_update_fields l0 d s) as (_ & _ & _ & _ & ->).
    repeat split. repeat case_decide; congruence.
  - rewrite Hc. by rewrite decide_False.
  - destruct Hset as [[? Hc']|Hr']; congruence.
Qed.

Lemma settled_after d d' s : settled d s → settled d (updateChart d' s).
Proof.
  intros [[l Hl]|Hr]; [left|right].
  - exists l. by apply updateChart_keeps_registration.
  - by rewrite updateChart_refs.
Qed.

Lemma settled_self d s : settled d (updateChart d s).
Proof.
  destruct (refs s !! title d) as [ctx|] eqn:Hr.
  - left. apply updateChart_registers. by rewrite Hr.
  - right. by rewrite updateChart_refs.
Qed.

Lemma settled_reconcile d ds s : settled d s → settled d (reconcile ds s).
Proof.
  revert s. induction ds as [|d' ds IH]; intros s Hs; [done|].
  simpl. by apply IH, settled_after.
Qed.

(** After a pass over [ds], a second pass over [ds] constructs nothing. *)
Lemma reconcile_settles ds s :
  Forall (λ d, settled d (reconcile ds s)) ds.
Proof.
  revert s. induction ds as [|d ds IH]; intros s; constructor.
  - simpl. apply settled_reconcile, settled_self.
  - apply IH.
Qed.

Lemma settled_pass ds s :
  Forall (λ d, settled d s) ds →
  charts (reconcile ds s) = charts s
  ∧ next (reconcile ds s) = next s
  ∧ ∀ l, heap (reconcile ds s) !! l
         = fold_left (touch (charts s) l) ds (heap s !! l).
Proof.
  revert s. induction ds as [|d ds IH]; intros s Hall; [done|].
  apply Forall_cons in Hall as [Hd Hds]. simpl.
  destruct (settled_updateChart d s 0 Hd) as (Hc & Hn & _).
  destruct (IH (updateChart d s)) as (IHc & IHn & IHh).
  { eapply Forall_impl; [exact Hds|]. intros d'. apply settled_after. }
  rewrite IHc, IHn, Hc, Hn. repeat split.
  intros l. rewrite IHh, Hc.
  by rewrite (proj2 (proj2 (settled_updateChart d s l Hd))).
Qed.

(** *** The objects after a pass are fixed points of a second pass *)

Lemma fold_touch_same_chart C l ds o :
  match o, fold_left (touch C l) ds o with
  | Some c, Some c' => same_chart c c'
  | None, None => True
  | _, _ => False
  end.
Proof.
  revert o. induction ds as [|d ds IH]; intros o; simpl.
  - destruct o; [by split|done].
  - specialize (IH (touch C l o d)). unfold touch in *.
    destruct o as [c|]; case_decide; simpl in *; try done.
    all: destruct (fold_left _ ds _); [|done]; destruct IH as [? ?]; by split.
Qed.

Lemma fold_touch_ext C1 C2 l ds o :
  Forall (λ d, C1 !! title d = Some l ↔ C2 !! title d = Some l) ds →
  fold_left (touch C1 l) ds o = fold_left (touch C2 l) ds o.
Proof.
  revert o. induction ds as [|d ds IH]; intros o Hall; [done|].
  apply Forall_cons in Hall as [Hd Hds]. simpl.
  rewrite IH by done. f_equal. unfold touch.
  repeat case_decide; tauto.
Qed.

Lemma reconcile_snoc ds d s :
  reconcile (ds ++ [d]) s = updateChart d (reconcile ds s).
Proof. unfold reconcile. by rewrite fold_left_app. Qed.

Lemma reconcile_fixes_objects ds s l :
  fold_left (touch (charts (reconcile ds s)) l) ds (heap (reconcile ds s) !! l)
  = heap (reconcile ds s) !! l.
Proof.
  revert l. induction ds as [|d ds IH] using rev_ind; intros l; [done|].
  rewrite reconcile_snoc, fold_left_app. simpl.
  set (G := reconcile ds s) in *. unfold touch at 1.
  case_decide as Htouch.
  - (* [d] is the last to write to [l] *)
    pose proof (fold_touch_same_chart (charts (updateChart d G)) l ds
                  (heap (updateChart d G) !! l)) as Hsame.
    assert (∀ c, heap (updateChart d G) !! l = Some c → assigned d c = c)
      as Hlast.
    { intros c.
      destruct (updateChart_cases d G) as [l0 Hc E|Hc _ E|ctx Hc Hr E];
        rewrite E in *.
      - rewrite assign_and_update_charts in Htouch.
        assert (l0 = l) as -> by congruence.
        rewrite assign_and_update_heap, lookup_alter_eq.
        destruct (heap G !! l); intros [= <-]. apply assigned_idem.
      - congruence.
      - rewrite assign_and_update_charts in Htouch. simpl in Htouch.
        rewrite lookup_insert_eq in Htouch. injection Htouch as <-.
        rewrite assign_and_update_heap, lookup_alter_eq. simpl.
        rewrite lookup_insert_eq. intros [= <-]. apply assigned_idem. }
    destruct (heap (updateChart d G) !! l) as [c|] eqn:Hl;
      destruct (fold_left _ ds _) as [c'|]; try done.
    simpl. f_equal. rewrite (assigned_absorbs d c c' Hsame). by apply Hlast.
  - (* [d] leaves [l] alone: back to the state before it *)
    assert (heap (updateChart d G) !! l = heap G !! l
            ∧ Forall (λ d', charts (updateChart d G) !! title d' = Some l
                            ↔ charts G !! title d' = Some l) ds)
      as [Hheap Hcharts].
    { destruct (updateChart_cases d G) as [l0 Hc E|Hc _ E|ctx Hc Hr E];
        rewrite E in *.
      - rewrite assign_and_update_charts in *. rewrite assign_and_update_heap.
        split; [|by apply Forall_forall].
        apply lookup_alter_ne. congruence.
      - split; [done|by apply Forall_forall].
      - rewrite assign_and_update_charts in *. rewrite assign_and_update_heap.
        simpl in *. rewrite lookup_insert_eq in Htouch.
        assert (next G ≠ l) as Hne by congruence.
        split.
        + by rewrite lookup_alter_ne, lookup_insert_ne.
        + apply Forall_forall. intros d' _. rewrite lookup_insert.
          case_decide as Ht; [|done]. rewrite <- Ht, Hc.
          split; congruence. }
    rewrite Hheap, (fold_touch_ext _ (charts G)) by done. apply IH.
Qed.

(** *** The theorem *)

Lemma reconcile_data_loading ds s :
  data (reconcile ds s) = data s ∧ loading (reconcile ds s) = loading s.
Proof.
  revert s. induction ds as [|d ds IH]; intros s; [done|]. simpl.
  destruct (IH (updateChart d s)) as [-> ->]. apply updateChart_data_loading.
Qed.

Lemma reconcile_idempotent ds s :
  chart_state (reconcile ds (reconcile ds s)) = chart_state (reconcile ds s)
  ∧ next (reconcile ds (reconcile ds s)) = next (reconcile ds s).
Proof.
  destruct (settled_pass ds (reconcile ds s) (reconcile_settles ds s))
    as (Hc & Hn & Hh).
  split; [|done]. unfold chart_state. f_equal; [done|].
  apply map_eq. intros l. rewrite Hh. apply reconcile_fixes_objects.
Qed.

Lemma assign_and_update_next l d s : next (assign_and_update l d s) = next s.
Proof. apply assign_and_update_fields. Qed.

(** The trace has no influence on what [updateChart] does to the charts. *)
Lemma updateChart_emit e d s :
  chart_state (updateChart d (emit e s)) = chart_state (updateChart d s)
  ∧ next (updateChart d (emit e s)) = next (updateChart d s).
Proof.
  unfold chart_state, updateChart. cbn [emit charts refs next].
  destruct (charts s !! title d) as [l|]; [|destruct (refs s !! title d)];
    rewrite ?assign_and_update_charts, ?assign_and_update_heap,
      ?assign_and_update_next; done.
Qed.

Lemma renderCharts_reconcile s :
  chart_state (renderCharts s)
  = chart_state (reconcile (if truthy (data s)
                            then [strokeUnitAccess (data s)] else []) s)
  ∧ next (renderCharts s)
    = next (reconcile (if truthy (data s)
                       then [strokeUnitAccess (data s)] else []) s)
  ∧ data (renderCharts s) = data s.
Proof.
  unfold renderCharts. cbn [emit data]. destruct (truthy (data s)); [|done].
  cbn [reconcile fold_left].
  destruct (updateChart_emit EvRenderCharts (strokeUnitAccess (data s)) s)
    as [-> ->].
  repeat split.
  apply (updateChart_data_loading _ (emit EvRenderCharts s)).
Qed.

Lemma updateChart_congr d s s' :
  same_charts s s' → same_charts (updateChart d s) (updateChart d s').
Proof.
  intros (Hc & Hh & Hn & Hr). unfold same_charts.
  rewrite !updateChart_refs. unfold updateChart. rewrite Hc, Hr, Hn.
  destruct (charts s' !! title d) as [l|]; [|destruct (refs s' !! title d)];
    rewrite ?assign_and_update_charts, ?assign_and_update_heap,
      ?assign_and_update_next; simpl; rewrite ?Hc, ?Hh, ?Hn; done.
Qed.

Lemma reconcile_congr ds s s' :
  same_charts s s' → same_charts (reconcile ds s) (reconcile ds s').
Proof.
  revert s s'. induction ds as [|d ds IH]; intros s s' Hs; [done|].
  simpl. by apply IH, updateChart_congr.
Qed.

Lemma renderCharts_same_charts s :
  same_charts (renderCharts s)
    (reconcile (if truthy (data s) then [strokeUnitAccess (data s)] else []) s).
Proof.
  destruct (renderCharts_reconcile s) as (Hcs & Hn & _).
  injection Hcs as Hc Hh. repeat split; try done.
  rewrite reconcile_refs. unfold renderCharts. cbn [emit data].
  destruct (truthy (data s)); [|done]. by rewrite updateChart_refs.
Qed.

(** C3.  A second call of [renderCharts] right after the first leaves the
    registry (hence the identity of every chart), every chart object (element,
    kind, data and options), the allocation counter, the snapshot and
    [loading] as the first call left them.  The same holds for two passes of
    [updateChart] over any list of descriptors, in any component state. *)
Theorem reconcile_twice_is_reconcile_once (s : Component) (ds : list Descriptor) :
  (chart_state (renderCharts (renderCharts s)) = chart_state (renderCharts s)
   ∧ next (renderCharts (renderCharts s)) = next (renderCharts s)
   ∧ data (renderCharts (renderCharts s)) = data (renderCharts s)
   ∧ loading (renderCharts (renderCharts s)) = loading (renderCharts s))
  ∧ (chart_state (reconcile ds (reconcile ds s)) = chart_state (reconcile ds s)
     ∧ next (reconcile ds (reconcile ds s)) = next (reconcile ds s)
     ∧ data (reconcile ds (reconcile ds s)) = data (reconcile ds s)
     ∧ loading (reconcile ds (reconcile ds s)) = loading (reconcile ds s)).
Proof.
  split.
  - set (s1 := renderCharts s).
    destruct (renderCharts_reconcile s1) as (_ & _ & Hd1).
    destruct (renderCharts_reconcile s) as (_ & _ & Hd).
    pose proof (renderCharts_same_charts s1) as H2.
    pose proof (renderCharts_same_charts s) as H1. fold s1 in H1, Hd.
    rewrite Hd in H2.
    set (L := if truthy (data s) then [strokeUnitAccess (data s)] else [])
      in *.
    pose proof (reconcile_congr L _ _ H1) as H12.
    destruct (reconcile_idempotent L s) as [Hcs Hn]. injection Hcs as Hc Hh.
    destruct H1 as (H1c & H1h & H1n & _), H2 as (H2c & H2h & H2n & _),
      H12 as (H12c & H12h & H12n & _).
    split; [unfold chart_state; f_equal; congruence|].
    split; [congruence|]. split; [exact Hd1|]. apply renderCharts_loading.
  - destruct (reconcile_idempotent ds s) as [Hcs Hn].
    destruct (reconcile_data_loading ds (reconcile ds s)) as [Hd Hl].
    auto.
Qed.

End Idempotence.

(* ===================================================================== *)
(** ** Further properties: the registry over time *)
(* ===================================================================== *)

Section Registry.
Import Scenario.
Implicit Types (s : Component) (d : Descriptor) (l : loc) (c : Chart)
  (t : string) (acts : list Action).

Lemma renderCharts_keeps_registration s t l :
  charts s !! t = Some l → charts (renderCharts s) !! t = Some l.
Proof.
  intros Ht. unfold renderCharts. cbn [emit data].
  destruct (truthy (data s)); [|done].
  by apply updateChart_keeps_registration.
Qed.

Lemma perform_keeps_registration a s t l :
  charts s !! t = Some l → charts (perform a s) !! t = Some l.
Proof.
  intros Ht. destruct a as [|[body|err]| |d|rs]; cbn [perform settle]; trivial.
  - unfold fetchData_then. by apply renderCharts_keeps_registration.
  - by apply renderCharts_keeps_registration.
  - by apply updateChart_keeps_registration.
Qed.

(** X1.  Once a slot has a chart it keeps that very chart through every history:
    no method of the component ever removes or replaces a registry entry, not
    even when the container disappears or fetches fail; the object stays in
    the store. *)
Theorem registration_is_permanent s t l acts :
  reachable s →
  charts s !! t = Some l →
  charts (run acts s) !! t = Some l ∧ is_Some (heap (run acts s) !! l).
Proof.
  intros Hreach Ht.
  assert (charts (run acts s) !! t = Some l) as Hrun.
  { clear Hreach. revert s Ht. induction acts as [|a acts IH]; intros s Ht.
    - done.
    - simpl. by apply IH, perform_keeps_registration. }
  split; [done|].
  eapply wf_registered; [|exact Hrun]. auto with wf.
Qed.

Lemma registration_is_permanent_witness :
  charts (run [ActRefs ∅; ActFetchData; ActSettle (Rejected serverError);
               ActUpdateChart barDescriptor] rendered) !! slot = Some 0.
Proof.
  apply (registration_is_permanent rendered slot 0
           [ActRefs ∅; ActFetchData; ActSettle (Rejected serverError);
            ActUpdateChart barDescriptor]).
  - exists {[slot := canvas]}, JNull,
      [ActFetchData; ActSettle (Fulfilled snapshot)]. reflexivity.
  - reflexivity.
Defined.

(** *** No object without a slot *)

Lemma all_registered_updateChart d s :
  all_registered s → all_registered (updateChart d s).
Proof.
  intros Hall l.
  destruct (updateChart_cases d s) as [l0 Hc E|_ _ E|ctx Hc Hr E]; rewrite E.
  - rewrite assign_and_update_heap, assign_and_update_charts,
      lookup_alter_is_Some. apply Hall.
  - apply Hall.
  - rewrite assign_and_update_heap, assign_and_update_charts,
      lookup_alter_is_Some. simpl.
    rewrite lookup_insert_is_Some. intros [<-|[Hne Hl]].
    + exists (title d). apply lookup_insert_eq.
    + destruct (Hall l Hl) as [t Ht]. exists t.
      rewrite lookup_insert_ne; [done|]. congruence.
Qed.

Lemma all_registered_perform a s :
  all_registered s → all_registered (perform a s).
Proof.
  intros Hall. destruct a as [|[body|err]| |d|rs]; cbn [perform settle];
    trivial.
  - unfold fetchData_then, renderCharts. cbn [emit data set_loading set_data].
    destruct (truthy body); [|done]. by apply all_registered_updateChart.
  - unfold renderCharts. cbn [emit data].
    destruct (truthy (data s)); [|done]. by apply all_registered_updateChart.
  - by apply all_registered_updateChart.
Qed.

Lemma all_registered_run acts s :
  all_registered s → all_registered (run acts s).
Proof.
  revert s. induction acts as [|a acts IH]; intros s Hall; [done|].
  simpl. by apply IH, all_registered_perform.
Qed.

(** X2.  In every state the component can reach, the registry and the store of
    chart objects agree: each registered slot names an object of the store,
    each object of the store is the chart of a slot, and of one slot only. *)
Theorem registry_and_store_agree s :
  reachable s →
  (∀ t l, charts s !! t = Some l → is_Some (heap s !! l))
  ∧ (∀ l, is_Some (heap s !! l) → ∃ t, charts s !! t = Some l)
  ∧ (∀ t1 t2 l, charts s !! t1 = Some l → charts s !! t2 = Some l → t1 = t2).
Proof.
  intros Hreach. pose proof (reachable_wf s Hreach) as Hwf.
  split; [apply (wf_registered s Hwf)|]. split; [|apply (wf_distinct s Hwf)].
  destruct Hreach as (rs & hs & acts & ->).
  apply all_registered_run. intros l [c Hc]. simpl in Hc.
  by rewrite lookup_empty in Hc.
Qed.

Lemma registry_and_store_agree_witness :
  is_Some (heap (updateChart barDescriptor rendered) !! 0).
Proof.
  refine (proj1 (registry_and_store_agree
                   (updateChart barDescriptor rendered) _) slot 0 _).
  - exists {[slot := canvas]}, JNull,
      [ActFetchData; ActSettle (Fulfilled snapshot);
       ActUpdateChart barDescriptor].
    reflexivity.
  - reflexivity.
Defined.

End Registry.

(* ===================================================================== *)
(** ** Further properties: how calls of [updateChart] compose *)
(* ===================================================================== *)

Section Composition.
Import Scenario.
Implicit Types (s : Component) (d : Descriptor) (l : loc) (c : Chart)
  (t : string) (o : option Chart) (ds : list Descriptor).

Lemma assigned_twice d1 d2 c : assigned d2 (assigned d1 c) = assigned d2 c.
Proof. reflexivity. Qed.

(** X3.  Two calls for the same slot amount to one: the later call decides data
    and options, the earlier one the chart kind (which only matters when the
    first call constructs the chart).  This holds in every state. *)
Theorem same_slot_calls_compose d1 d2 s :
  title d1 = title d2 →
  chart_state (updateChart d2 (updateChart d1 s))
  = chart_state (updateChart (with_chartType (chartType d1) d2) s)
  ∧ next (updateChart d2 (updateChart d1 s))
    = next (updateChart (with_chartType (chartType d1) d2) s).
Proof.
  intros Ht. unfold chart_state.
  destruct (updateChart_cases d1 s) as [l Hc E|Hc Hr E|ctx Hc Hr E]; rewrite E.
  - rewrite (updateChart_registered d2 _ l)
      by (by rewrite assign_and_update_charts, <- Ht).
    rewrite (updateChart_registered (with_chartType _ d2) s l)
      by (by simpl; rewrite <- Ht).
    rewrite !assign_and_update_charts, !assign_and_update_heap,
      !assign_and_update_next.
    rewrite alter_alter_eq. split; [|done]. f_equal.
  - rewrite (updateChart_skip d2 s) by (by rewrite <- Ht).
    by rewrite (updateChart_skip (with_chartType _ d2) s)
      by (by simpl; rewrite <- Ht).
  - rewrite (updateChart_registered d2 _ (next s)).
    2:{ rewrite assign_and_update_charts. simpl.
        rewrite <- Ht. apply lookup_insert_eq. }
    rewrite (updateChart_create (with_chartType _ d2) s ctx)
      by (by simpl; rewrite <- Ht).
    rewrite !assign_and_update_charts, !assign_and_update_heap,
      !assign_and_update_next.
    simpl. rewrite Ht, alter_alter_eq, !alter_insert_eq. done.
Qed.

Lemma same_slot_calls_compose_witness :
  chart_state (updateChart (strokeUnitAccess laterSnapshot)
                 (updateChart barDescriptor mounted))
  = chart_state (updateChart (with_chartType "bar"
                                (strokeUnitAccess laterSnapshot)) mounted).
Proof.
  apply (same_slot_calls_compose barDescriptor
           (strokeUnitAccess laterSnapshot) mounted).
  reflexivity.
Defined.

(** *** Slot by slot *)

Lemma chart_at_updateChart d s t :
  wf s → chart_at (updateChart d s) t = slot_step (refs s) t (chart_at s t) d.
Proof.
  intros Hwf. unfold chart_at, slot_step.
  destruct (updateChart_cases d s) as [l Hc E|Hc Hr E|ctx Hc Hr E]; rewrite E.
  - rewrite assign_and_update_charts, assign_and_update_heap.
    case_decide as Ht.
    + subst t. rewrite Hc. simpl. rewrite lookup_alter_eq.
      destruct (wf_registered s Hwf _ _ Hc) as [c ->]. done.
    + destruct (charts s !! t) as [l'|] eqn:Hl'; [|done]. simpl.
      rewrite lookup_alter_ne; [done|]. intros ->.
      apply Ht. by apply (wf_distinct s Hwf _ _ l').
  - case_decide as Ht; [|done]. subst t. by rewrite Hc, Hr.
  - rewrite assign_and_update_charts, assign_and_update_heap. simpl.
    case_decide as Ht.
    + subst t. rewrite Hc, Hr, lookup_insert_eq. simpl.
      by rewrite lookup_alter_eq, lookup_insert_eq.
    + rewrite lookup_insert_ne by done.
      destruct (charts s !! t) as [l'|] eqn:Hl'; [|done]. simpl.
      assert (l' < next s) as Hlt
        by (by apply (wf_fresh s Hwf), (wf_registered s Hwf t)).
      by rewrite lookup_alter_ne, lookup_insert_ne by lia.
Qed.

Lemma chart_at_reconcile ds s t :
  wf s →
  chart_at (reconcile ds s) t
  = fold_left (slot_step (refs s) t) ds (chart_at s t).
Proof.
  revert s. induction ds as [|d ds IH]; intros s Hwf; [done|].
  simpl. rewrite IH by auto with wf.
  by rewrite updateChart_refs, chart_at_updateChart.
Qed.

Lemma slot_step_swap rs t o d1 d2 :
  title d1 ≠ title d2 →
  slot_step rs t (slot_step rs t o d1) d2
  = slot_step rs t (slot_step rs t o d2) d1.
Proof.
  intros Hne. unfold slot_step. repeat case_decide; congruence.
Qed.

Lemma fold_slot_step_perm rs t ds ds' o :
  NoDup (title <$> ds) → ds ≡ₚ ds' →
  fold_left (slot_step rs t) ds o = fold_left (slot_step rs t) ds' o.
Proof.
  intros Hnd Hperm. revert o Hnd.
  induction Hperm as [|d ds ds' Hperm IH|d1 d2 ds|ds1 ds2 ds3 H12 IH12 H23 IH23];
    intros o Hnd.
  - done.
  - simpl. apply IH. by apply NoDup_cons in Hnd as [_ Hnd].
  - simpl. f_equal. apply slot_step_swap.
    rewrite !fmap_cons in Hnd. apply NoDup_cons in Hnd as [Hnotin _].
    intros Heq. apply Hnotin. rewrite Heq. apply list_elem_of_here.
  - rewrite IH12 by done. apply IH23. by rewrite <- H12.
Qed.

(** X4.  When the descriptors of a pass name pairwise different slots, the order
    in which [updateChart] is called for them does not matter for what any
    slot shows afterwards. *)
Theorem reconcile_order_independent ds ds' s t :
  reachable s →
  NoDup (title <$> ds) →
  ds ≡ₚ ds' →
  chart_at (reconcile ds s) t = chart_at (reconcile ds' s) t.
Proof.
  intros Hreach Hnd Hperm. pose proof (reachable_wf s Hreach) as Hwf.
  rewrite !chart_at_reconcile by done. by apply fold_slot_step_perm.
Qed.

Lemma reconcile_order_independent_witness :
  chart_at (reconcile [barDescriptor; otherDescriptor] twoCanvases) slot
  = chart_at (reconcile [otherDescriptor; barDescriptor] twoCanvases) slot.
Proof.
  apply (reconcile_order_independent [barDescriptor; otherDescriptor]
           [otherDescriptor; barDescriptor] twoCanvases slot).
  - exists {[slot := canvas; otherSlot := otherCanvas]}, JNull, [].
    reflexivity.
  - apply (bool_decide_unpack _). vm_compute. reflexivity.
  - apply perm_swap.
Defined.

End Composition.

(* ===================================================================== *)
(** ** Further properties: the calls the component makes *)
(* ===================================================================== *)

Section Calls.
Import Scenario.
#[local] Set Warnings "-clear-no-such-hyp".
Implicit Types (s : Component) (d : Descriptor) (l : loc) (c : Chart)
  (t : string) (acts : list Action) (tr : list Event) (live : gset loc).








(** *** Construct before update *)








End Calls.

(* ===================================================================== *)
(** ** Further properties: responses and what the page shows *)
(* ===================================================================== *)

Section Responses.
Import Scenario.
Implicit Types (s : Component) (d : Descriptor) (l : loc) (c : Chart)
  (body : JsValue) (acts : list Action).

Lemma chart_at_emit e s t : chart_at (emit e s) t = chart_at s t.
Proof. reflexivity. Qed.

Lemma fulfilled_truthy body s :
  truthy body = true →
  settle (Fulfilled body) s
  = updateChart (strokeUnitAccess body)
      (emit EvRenderCharts (set_loading false (set_data body s))).
Proof.
  intros Hb. cbn [settle]. unfold fetchData_then, renderCharts.
  cbn [emit data set_loading set_data]. by rewrite Hb.
Qed.

(** X7.  A fulfilled response with a truthy body always ends up on the chart,
    whatever was displayed or in flight before: if the slot has a chart or a
    container, then afterwards [data] is the body, [loading] is off, and
    the chart of ["strokeUnitAccessChart"] has the body's [months] as labels
    and its [stroke_unit_access] as the one series, with the percentage
    options.  So of two responses the one that arrives last is shown. *)
Theorem fulfilled_snapshot_is_shown s body :
  reachable s →
  is_Some (charts s !! "strokeUnitAccessChart")
  ∨ is_Some (refs s !! "strokeUnitAccessChart") →
  truthy body = true →
  let s' := settle (Fulfilled body) s in
  data s' = body
  ∧ loading s' = false
  ∧ ∃ c, chart_at s' "strokeUnitAccessChart" = Some c
         ∧ prop "labels" (chart_data c) = prop "months" body
         ∧ prop "datasets" (chart_data c)
           = JArr [literal ([("label", JStr "Percentage");
                             ("data", prop "stroke_unit_access" body)]
                            ++ spread lineStyles)]
         ∧ chart_options c = percentageLineOptions.
Proof.
  intros Hreach Hpast Hb s'. subst s'. rewrite (fulfilled_truthy body s Hb).
  set (s0 := emit EvRenderCharts (set_loading false (set_data body s))).
  destruct (updateChart_data_loading (strokeUnitAccess body) s0) as [-> ->].
  split; [done|]. split; [done|].
  assert (wf s0) as Hwf0.
  { apply wf_emit; [done|]. by destruct (reachable_wf s Hreach). }
  rewrite (chart_at_updateChart _ s0 _ Hwf0). unfold slot_step.
  rewrite decide_True by done. unfold s0. rewrite chart_at_emit.
  destruct (chart_at (set_loading false (set_data body s))
              "strokeUnitAccessChart") as [c|] eqn:Hc.
  - by eexists.
  - cbn [emit refs set_loading set_data].
    destruct (refs s !! "strokeUnitAccessChart") as [ctx|] eqn:Hr.
    + by eexists.
    + destruct Hpast as [[l Hl]|[? ?]]; [|done].
      unfold chart_at in Hc. cbn [charts heap set_loading set_data] in Hc.
      rewrite Hl in Hc. simpl in Hc.
      destruct (wf_registered s (reachable_wf s Hreach) _ _ Hl) as [c Hc'].
      congruence.
Qed.

Lemma fulfilled_snapshot_is_shown_witness :
  data (settle (Fulfilled laterSnapshot) unmounted) = laterSnapshot.
Proof.
  apply (fulfilled_snapshot_is_shown unmounted laterSnapshot).
  - exists {[slot := canvas]}, JNull,
      [ActFetchData; ActSettle (Fulfilled snapshot); ActRefs ∅]. reflexivity.
  - left. exists 0. reflexivity.
  - reflexivity.
Defined.

(** X8.  A fulfilled response whose body is falsy ([null], [undefined], [false],
    [0], the empty string) is stored and turns [loading] off, but
    [renderCharts] returns at its first guard: no chart is constructed or
    updated, so the chart keeps showing the earlier snapshot, while the
    summary paragraph disappears. *)
Theorem falsy_body_renders_nothing s body :
  truthy body = false →
  let s' := settle (Fulfilled body) s in
  data s' = body
  ∧ loading s' = false
  ∧ chart_state s' = chart_state s
  ∧ next s' = next s
  ∧ trace s' = trace s ++ [EvRenderCharts]
  ∧ yearToDate s' = None.
Proof.
  intros Hb s'. subst s'. cbn [settle]. unfold fetchData_then, renderCharts.
  cbn [emit data set_loading set_data]. rewrite Hb.
  unfold yearToDate. cbn [emit data set_loading set_data]. by rewrite Hb.
Qed.

Lemma falsy_body_renders_nothing_witness :
  chart_state (settle (Fulfilled JNull) rendered) = chart_state rendered.
Proof.
  apply (falsy_body_renders_nothing rendered JNull). reflexivity.
Defined.

(** X9.  A snapshot object without the key [stroke_unit_access_percentage], or
    with [null] there, still shows the paragraph, with nothing before the
    percent sign. *)
Theorem missing_percentage_text s fields :
  data s = JObj fields →
  assoc "stroke_unit_access_percentage" fields = JUndefined
  ∨ assoc "stroke_unit_access_percentage" fields = JNull →
  yearToDate s = Some "Year to date: %".
Proof.
  intros Hd Hmissing. unfold yearToDate, percentageText. rewrite Hd. simpl.
  by destruct Hmissing as [-> | ->].
Qed.

Lemma missing_percentage_text_witness :
  yearToDate (set_data (literal [("months", JArr [])]) mounted)
  = Some "Year to date: %".
Proof.
  apply (missing_percentage_text
           (set_data (literal [("months", JArr [])]) mounted)
           [("months", JArr [])]).
  - reflexivity.
  - left. reflexivity.
Defined.



(** X11.  When a response arrives while the canvas is not there and no chart
    exists yet, the snapshot is stored but nothing is drawn; the canvas
    appearing later draws nothing either, the chart only comes with the next
    [renderCharts], and then from the stored snapshot on the new canvas. *)
Theorem late_mount s body (ctx : Element) :
  reachable s →
  charts s !! "strokeUnitAccessChart" = None →
  refs s !! "strokeUnitAccessChart" = None →
  truthy body = true →
  let arrived := settle (Fulfilled body) s in
  let later := set_refs (<["strokeUnitAccessChart" := ctx]> (refs arrived))
                 arrived in
  data arrived = body
  ∧ chart_state arrived = chart_state s
  ∧ trace arrived = trace s ++ [EvRenderCharts]
  ∧ chart_at later "strokeUnitAccessChart" = None
  ∧ ∃ c, chart_at (renderCharts later) "strokeUnitAccessChart" = Some c
         ∧ chart_ctx c = ctx
         ∧ chart_type c = "line"
         ∧ prop "labels" (chart_data c) = prop "months" body.
Proof.
  intros Hreach Hc Hr Hb arrived later.
  assert (arrived = emit EvRenderCharts (set_loading false (set_data body s)))
    as Harr.
  { unfold arrived. rewrite (fulfilled_truthy body s Hb).
    by apply updateChart_skip. }
  assert (wf arrived) as Hwf.
  { rewrite Harr. apply wf_emit; [done|]. by destruct (reachable_wf s Hreach). }
  split; [by rewrite Harr|]. split; [by rewrite Harr|].
  split; [by rewrite Harr|].
  assert (chart_at later "strokeUnitAccessChart" = None) as Hnone.
  { unfold chart_at, later. rewrite Harr. simpl. by rewrite Hc. }
  split; [done|].
  unfold renderCharts. cbn [emit data].
  replace (data later) with body by (by unfold later; rewrite Harr).
  rewrite Hb, chart_at_updateChart.
  2:{ apply wf_emit; [done|]. unfold later. by destruct Hwf. }
  unfold slot_step. rewrite decide_True by done.
  rewrite chart_at_emit, Hnone. cbn [emit refs later set_refs].
  rewrite lookup_insert_eq. by eexists.
Qed.

Lemma late_mount_witness :
  data (settle (Fulfilled snapshot) (initial ∅ JNull)) = snapshot.
Proof.
  apply (late_mount (initial ∅ JNull) snapshot canvas); try reflexivity.
  exists ∅, JNull, []. reflexivity.
Defined.

Lemma failed_fetch_perform a s :
  failed_fetch a = true →
  data (perform a s) = data s
  ∧ chart_state (perform a s) = chart_state s
  ∧ next (perform a s) = next s
  ∧ yearToDate (perform a s) = yearToDate s
  ∧ loading (perform a s) = loading s || is_fetch a.
Proof.
  destruct a as [|[body|err]| |d|rs]; try discriminate; intros _; simpl;
    rewrite ?orb_true_r, ?orb_false_r; done.
Qed.

(** X12.  However many fetches fail in a row, the page keeps what it showed: the
    snapshot, the registry, the chart objects and the summary paragraph are
    untouched, and [loading] is on as soon as one fetch was started. *)
Theorem failed_fetches_change_nothing acts s :
  forallb failed_fetch acts = true →
  data (run acts s) = data s
  ∧ chart_state (run acts s) = chart_state s
  ∧ next (run acts s) = next s
  ∧ yearToDate (run acts s) = yearToDate s
  ∧ loading (run acts s) = loading s || existsb is_fetch acts.
Proof.
  revert s. induction acts as [|a acts IH]; intros s Hall.
  - simpl. by rewrite orb_false_r.
  - cbn [forallb] in Hall. apply andb_true_iff in Hall as [Ha Hacts].
    cbn [run fold_left]. fold (run acts (perform a s)).
    destruct (IH (perform a s) Hacts) as (-> & -> & -> & -> & ->).
    destruct (failed_fetch_perform a s Ha) as (-> & -> & -> & -> & ->).
    cbn [existsb]. by rewrite orb_assoc.
Qed.

Lemma failed_fetches_change_nothing_witness :
  yearToDate (run [ActFetchData; ActSettle (Rejected serverError);
                   ActFetchData; ActSettle (Rejected serverError)] rendered)
  = yearToDate rendered.
Proof.
  apply (failed_fetches_change_nothing
           [ActFetchData; ActSettle (Rejected serverError);
            ActFetchData; ActSettle (Rejected serverError)] rendered).
  reflexivity.
Defined.




End Responses.

(* ===================================================================== *)
(** ** Further properties: the debounced function on any sequence of calls *)
(* ===================================================================== *)

(** Decide the comparisons of the goal from the hypotheses. *)
Ltac order_times :=
  repeat match goal with
  | |- context [(?a <=? ?b)%Z] =>
      first [ replace (a <=? b)%Z with true by (symmetry; apply Z.leb_le; lia)
            | replace (a <=? b)%Z with false by (symmetry; apply Z.leb_gt; lia) ]
  | |- context [(?a <? ?b)%Z] =>
      first [ replace (a <? b)%Z with true by (symmetry; apply Z.ltb_lt; lia)
            | replace (a <? b)%Z with false by (symmetry; apply Z.ltb_ge; lia) ]
  end.

Section Schedule.
Import Lodash.
Open Scope Z_scope.

Variable cfg : Config.
Hypothesis lead : leading cfg = true.
Hypothesis trail : trailing cfg = true.
Hypothesis nomax : maxWait cfg = None.
Hypothesis pos : 0 < wait cfg.

Implicit Types (t d inv : Z) (la : bool) (fuel : nat) (ts : list Z).

(** Before a call that comes after the silence, the timer runs down to the
    trailing edge. *)
Lemma runTimers_quiet fuel la t inv d t' :
  t < d ≤ t + wait cfg → t + wait cfg ≤ t' →
  runTimers cfg (S (S (S fuel))) (Some t') (mkState la (Some t) inv (Some d))
  = (mkState false (Some t) (if la then t + wait cfg else inv) None,
     if la then [t + wait cfg] else []).
Proof.
  intros Hd Ht'. destruct (decide (d = t + wait cfg)) as [->|Hne].
  - cbn [runTimers timerId]. order_times.
    rewrite (timerExpired_trailing cfg trail pos). cbn [timerId].
    by destruct la.
  - cbn [runTimers timerId]. order_times.
    rewrite (timerExpired_early cfg nomax) by lia. cbn [timerId]. order_times.
    rewrite (timerExpired_trailing cfg trail pos). cbn [timerId].
    by destruct la.
Qed.

(** A call after the silence is a leading edge again. *)
Lemma debounced_after_quiet t inv t' :
  t + wait cfg ≤ t' →
  debounced cfg t' (mkState false (Some t) inv None)
  = (mkState false (Some t') t' (Some (t' + wait cfg)), true).
Proof.
  intros Ht'. unfold debounced, shouldInvoke, leadingEdge, invokeFunc. simpl.
  order_times. simpl. by rewrite lead.
Qed.

Lemma runCalls_schedule fuel ts la t inv d :
  t < d ≤ t + wait cfg →
  ascending t ts = true →
  (runCalls cfg (S (S (S fuel))) ts (mkState la (Some t) inv (Some d))).2
  = schedule (wait cfg) t la ts.
Proof.
  revert la t inv d. induction ts as [|t' ts IH]; intros la t inv d Hd Hasc.
  - cbn [runCalls schedule].
    by rewrite (runTimers_drain cfg trail nomax pos).
  - cbn [ascending] in Hasc. apply andb_true_iff in Hasc as [Hle Hasc].
    apply Z.leb_le in Hle. cbn [runCalls schedule].
    destruct (Z.lt_ge_cases t' (t + wait cfg)) as [Hin|Hout].
    + destruct (runTimers_in_burst cfg nomax (S fuel) la t inv d t')
        as (d' & -> & Hd'); [lia..|].
      rewrite (debounced_coalesced cfg nomax) by lia. order_times.
      specialize (IH true t' inv d').
      destruct (runCalls cfg _ ts _) as [st3 times3]. simpl in *.
      apply IH; [lia|done].
    + rewrite runTimers_quiet by lia.
      rewrite debounced_after_quiet by lia. order_times.
      specialize (IH false t' t' (t' + wait cfg)).
      destruct (runCalls cfg _ ts _) as [st3 times3]. simpl in *.
      rewrite IH by (done || lia). done.
Qed.

Lemma runCalls_schedule_idle fuel t0 ts :
  (3 ≤ fuel)%nat →
  ascending t0 ts = true →
  (runCalls cfg fuel (t0 :: ts) idle).2 = t0 :: schedule (wait cfg) t0 false ts.
Proof.
  intros Hfuel Hasc. destruct fuel as [|[|[|fuel]]]; [lia..|].
  cbn [runCalls]. cbn [runTimers idle timerId].
  rewrite (debounced_leading cfg lead).
  pose proof (runCalls_schedule fuel ts false t0 t0 (t0 + wait cfg)) as H.
  destruct (runCalls cfg _ ts _) as [st3 times3]. simpl in *.
  rewrite H by (done || lia). done.
Qed.

(** *** Facts about the schedule *)

Lemma schedule_spaced w t ts :
  spaced w t ts = true → schedule w t false ts = ts.
Proof.
  revert t. induction ts as [|t' ts IH]; intros t Hsp; [done|].
  cbn [spaced] in Hsp. apply andb_true_iff in Hsp as [Hgap Hsp].
  apply Z.leb_le in Hgap. cbn [schedule]. order_times.
  simpl. by rewrite IH.
Qed.

Lemma spaced_ascending w t ts :
  0 < w → spaced w t ts = true → ascending t ts = true.
Proof.
  intros Hw. revert t. induction ts as [|t' ts IH]; intros t Hsp; [done|].
  cbn [spaced] in Hsp. apply andb_true_iff in Hsp as [Hgap Hsp].
  apply Z.leb_le in Hgap. cbn [ascending]. order_times. by apply IH.
Qed.

(** The last run serves the last call: it is that call itself or comes
    [w] after it. *)
Lemma schedule_last w t la ts :
  0 < w → ascending t ts = true →
  let tn := List.last ts t in
  la = true ∨ ts ≠ [] →
  last (schedule w t la ts) = Some tn
  ∨ last (schedule w t la ts) = Some (tn + w).
Proof.
  intros Hw. revert t la. induction ts as [|t' ts IH]; intros t la Hasc tn Hsome.
  - destruct Hsome as [->|?]; [|done]. by right.
  - subst tn. rewrite last_cons_default.
    cbn [ascending] in Hasc. apply andb_true_iff in Hasc as [Hle Hasc].
    cbn [schedule]. destruct (t' <? t + w).
    + apply IH; auto.
    + destruct ts as [|t'' ts].
      * left. cbn [schedule List.last]. by rewrite last_snoc.
      * assert (t'' :: ts ≠ []) as Hne by discriminate.
        specialize (IH t' false Hasc (or_intror Hne)).
        rewrite last_app, (last_cons t').
        destruct IH as [-> | ->]; auto.
Qed.

End Schedule.

(** X14.  Whenever [debouncedFetchData] is called, at whatever ascending times,
    [fetchData] runs exactly when the documentation of [debounce] says it
    should: at each call that comes at least 1000 ms after the one before,
    and 1000 ms after the last call of each burst that had further calls. *)
Theorem debounce_follows_schedule (fuel : nat) (t0 : Z) (ts : list Z) :
  3 ≤ fuel →
  Lodash.ascending t0 ts = true →
  (Lodash.runCalls debounceConfig fuel (t0 :: ts) Lodash.idle).2
  = t0 :: Lodash.schedule 1000 t0 false ts.
Proof. intros Hfuel Hasc. by apply runCalls_schedule_idle. Qed.

Lemma debounce_follows_schedule_witness :
  (Lodash.runCalls debounceConfig 3 [0; 100; 300; 2500; 3499; 5000]%Z
     Lodash.idle).2
  = [0; 1300; 2500; 4499; 5000]%Z.
Proof.
  apply (debounce_follows_schedule 3 0 [100; 300; 2500; 3499; 5000]%Z);
    [lia|reflexivity].
Defined.

(** X15.  Calls of [debouncedFetchData] that are each at least 1000 ms after the
    one before all run [fetchData] at once, and nothing runs in between or
    afterwards. *)
Theorem debounce_spaced_calls_run_at_once (fuel : nat) (t0 : Z) (ts : list Z) :
  3 ≤ fuel →
  Lodash.spaced 1000 t0 ts = true →
  (Lodash.runCalls debounceConfig fuel (t0 :: ts) Lodash.idle).2 = t0 :: ts.
Proof.
  intros Hfuel Hsp.
  assert (Lodash.ascending t0 ts = true) as Hasc
    by (by apply (spaced_ascending 1000)).
  rewrite (runCalls_schedule_idle debounceConfig) by done.
  f_equal. by apply schedule_spaced.
Qed.

Lemma debounce_spaced_calls_run_at_once_witness :
  (Lodash.runCalls debounceConfig 3 [0; 1000; 2500]%Z Lodash.idle).2
  = [0; 1000; 2500]%Z.
Proof.
  apply (debounce_spaced_calls_run_at_once 3 0 [1000; 2500]%Z);
    [lia|reflexivity].
Defined.

(** X16.  No call of [debouncedFetchData] is lost: after any ascending sequence of
    calls the last run of [fetchData] is at the last call or 1000 ms after
    it, so the latest trigger is always followed by a fetch. *)
Theorem debounce_serves_last_call (fuel : nat) (t0 : Z) (ts : list Z) :
  3 ≤ fuel →
  Lodash.ascending t0 ts = true →
  let runs := (Lodash.runCalls debounceConfig fuel (t0 :: ts) Lodash.idle).2 in
  last runs = Some (List.last ts t0)
  ∨ last runs = Some (List.last ts t0 + 1000)%Z.
Proof.
  intros Hfuel Hasc runs. subst runs.
  rewrite (runCalls_schedule_idle debounceConfig) by done.
  change (Lodash.wait debounceConfig) with 1000%Z.
  destruct ts as [|t1 ts]; [by left|].
  pose proof (schedule_last 1000 t0 false (t1 :: ts)) as Hlast.
  cbv zeta in Hlast.
  destruct Hlast as [Hl|Hl]; [lia|done|by right|..].
  - left. destruct (Lodash.schedule 1000 t0 false (t1 :: ts)); [done|].
    by rewrite last_cons, Hl.
  - right. destruct (Lodash.schedule 1000 t0 false (t1 :: ts)); [done|].
    by rewrite last_cons, Hl.
Qed.

Lemma debounce_serves_last_call_witness :
  last (Lodash.runCalls debounceConfig 3 [0; 100; 300]%Z Lodash.idle).2
  = Some 300%Z
  ∨ last (Lodash.runCalls debounceConfig 3 [0; 100; 300]%Z Lodash.idle).2
    = Some (300 + 1000)%Z.
Proof.
  apply (debounce_serves_last_call 3 0 [100; 300]%Z); [lia|reflexivity].
Defined.
